(** * Adaptive chunking engine and retrieval orchestrator

    A shallow embedding of [app/services/chunking_service.py] and
    [app/services/rag_service.py] (with the two storage calls of
    [app/services/storage_service.py] they rely on), and the properties
    of the specification proved or refuted on it; then of
    [app/services/document_processor.py], of the writing side of the
    storage service and of the endpoint that deletes a document, with
    further properties read off the code.

    Modelling conventions.
    - A Python [str] is a list of Unicode code points ([str := list N]);
      dictionary keys and tags that are literals of the source are Rocq
      strings.
    - A Python [int] is a [Z]; [len] returns a [Z].
    - A Python [float] is an exact rational ([Q]): the arithmetic is the
      one the source writes, without binary64 rounding error.
    - The sentence tokenizer of NLTK, the embedding provider, the vector
      store and the clock are collaborators outside the repository; they
      are parameters (a function, or fields of a [World]).
    - A [while] loop runs on fuel; every result about a loop says for
      which fuel it returns, or that it returns for none. *)

From Stdlib Require Import ZArith QArith Qround Qminmax Lqa String Ascii List Lia.
From stdpp Require Import base list gmap strings.

Import ListNotations.
#[local] Open Scope Z_scope.

(** ** Python built-ins used by the services *)

Module Py.

Definition char := N.
Definition str := list char.

(** A literal of the source as a list of code points. *)
Definition lit (s : string) : str :=
  List.map N_of_ascii (list_ascii_of_string s).

Definition len {A} (l : list A) : Z := Z.of_nat (length l).

Definition in_range (lo hi c : N) : bool := ((lo <=? c) && (c <=? hi))%N.

(** [str.isspace] on one code point, which is also what [str.split()],
    [str.strip()] and the regular-expression class [\s] use: the
    characters of general category Zs or of bidirectional class WS, B
    or S. *)
Definition isspace (c : char) : bool :=
  in_range 9 13 c || in_range 28 32 c || (c =? 133)%N || (c =? 160)%N
  || (c =? 5760)%N || in_range 8192 8202 c || (c =? 8232)%N
  || (c =? 8233)%N || (c =? 8239)%N || (c =? 8287)%N || (c =? 12288)%N.

Definition NL : char := 10%N.
Definition SP : char := 32%N.

(** [str.split()] with no argument: the maximal runs of non-whitespace.
    [cur] is the word being read, in reverse. *)
Fixpoint split_from (cur : str) (s : str) : list str :=
  match s with
  | [] => match cur with [] => [] | _ => [rev cur] end
  | c :: r =>
      if isspace c then
        match cur with
        | [] => split_from [] r
        | _ => rev cur :: split_from [] r
        end
      else split_from (c :: cur) r
  end.

Definition split (s : str) : list str := split_from [] s.

Fixpoint lstrip (s : str) : str :=
  match s with
  | [] => []
  | c :: r => if isspace c then lstrip r else s
  end.

Definition rstrip (s : str) : str := rev (lstrip (rev s)).

(** [str.strip()] with no argument. *)
Definition strip (s : str) : str := lstrip (rstrip s).

(** [sep.join(l)]. *)
Fixpoint join (sep : str) (l : list str) : str :=
  match l with
  | [] => []
  | x :: xs =>
      match xs with
      | [] => x
      | _ => x ++ sep ++ join sep xs
      end
  end.

(** A slice bound of Python, clamped to [0..n]; a negative bound counts
    from the end. *)
Definition clamp (n i : Z) : Z :=
  if i <? 0 then Z.max (i + n) 0 else Z.min i n.

(** [l[i:j]]. *)
Definition slice {A} (l : list A) (i j : Z) : list A :=
  let n := len l in
  let i' := clamp n i in
  let j' := clamp n j in
  take (Z.to_nat (j' - i')) (drop (Z.to_nat i') l).

(** [str.split(sep)] for a one-character separator: empty pieces are
    kept. [cur] is the piece being read, in reverse. *)
Fixpoint split_on_from (sep : char) (cur : str) (s : str) : list str :=
  match s with
  | [] => [rev cur]
  | c :: r =>
      if (c =? sep)%N then rev cur :: split_on_from sep [] r
      else split_on_from sep (c :: cur) r
  end.

Definition split_on (sep : char) (s : str) : list str :=
  split_on_from sep [] s.

(** Truth value of a string or a list: non-empty. *)
Definition truthy {A} (l : list A) : bool :=
  match l with [] => false | _ => true end.

End Py.

Import Py.

(** ** The chunk record and the service configuration *)

Inductive MetaVal :=
| MStr (s : string)
| MInt (z : Z).

(** [Chunk] of chunking_service.py; the metadata dictionary keeps its
    insertion order. *)
Record Chunk := mkChunk {
  text : str;
  index : Z;
  start_char : Z;
  end_char : Z;
  metadata : list (string * MetaVal)
}.

(** The two attributes [ChunkingService.__init__] stores. *)
Record ChunkingService := mkChunkingService {
  default_chunk_size : Z;
  default_overlap : Z
}.

(** ** Fixed-size chunking *)

(** The body of the [while] loop of [fixed_chunking] builds this chunk
    from the word list, the window start and the running index. *)
Definition fixed_chunk (words : list str) (chunk_size start_idx chunk_index : Z)
  : Chunk :=
  let end_idx := Z.min (start_idx + chunk_size) (len words) in
  let chunk_words := slice words start_idx end_idx in
  let chunk_text := join [SP] chunk_words in
  let start_char := len (join [SP] (slice words 0 start_idx)) in
  let end_char := start_char + len chunk_text in
  mkChunk chunk_text chunk_index start_char end_char
    [("strategy", MStr "fixed");
     ("word_count", MInt (len chunk_words));
     ("char_count", MInt (len chunk_text))]%string.

(** [while start_idx < len(words): ...]; [None] when the fuel runs out
    before the loop condition fails. *)
Fixpoint fixed_loop (fuel : nat) (words : list str) (chunk_size overlap : Z)
    (start_idx chunk_index : Z) (chunks : list Chunk) : option (list Chunk) :=
  match fuel with
  | O => None
  | S fuel' =>
      if start_idx <? len words then
        fixed_loop fuel' words chunk_size overlap
          (start_idx + (chunk_size - overlap)) (chunk_index + 1)
          (chunks ++ [fixed_chunk words chunk_size start_idx chunk_index])
      else Some chunks
  end.

Definition fixed_chunking (fuel : nat) (self : ChunkingService) (t : str)
  : option (list Chunk) :=
  let words := split t in
  if negb (truthy words) then Some []
  else fixed_loop fuel words (default_chunk_size self) (default_overlap self)
         0 0 [].

(** ** Paragraphs and sentences *)

(** Length of the match of [\s*\n] at the head of [s]: the regular
    expression is greedy, so the match runs to the last newline of the
    leading whitespace run. *)
Fixpoint blank_gap (s : str) : option nat :=
  match s with
  | [] => None
  | c :: r =>
      if isspace c then
        match blank_gap r with
        | Some k => Some (S k)
        | None => if (c =? NL)%N then Some 1%nat else None
        end
      else None
  end.

(** [re.split(r'\n\s*\n', s)]. At a newline the pattern is tried; on a
    match the piece read so far is cut and the [skip] characters of the
    match are dropped. [cur] is the piece being read, in reverse. *)
Fixpoint re_split_blank (skip : nat) (cur : str) (s : str) : list str :=
  match s with
  | [] => [rev cur]
  | c :: r =>
      match skip with
      | S k => re_split_blank k cur r
      | O =>
          if (c =? NL)%N then
            match blank_gap r with
            | Some k => rev cur :: re_split_blank k [] r
            | None => re_split_blank 0 (c :: cur) r
            end
          else re_split_blank 0 (c :: cur) r
      end
  end.

(** [[p.strip() for p in pieces if p.strip()]]. *)
Definition strip_nonblank (pieces : list str) : list str :=
  List.map strip (List.filter (fun p => truthy (strip p)) pieces).

Definition _split_paragraphs (t : str) : list str :=
  strip_nonblank (re_split_blank 0 [] t).

Definition is_terminator (c : char) : bool :=
  (c =? 46)%N || (c =? 33)%N || (c =? 63)%N.

(** [re.split(r'[.!?]+', s)]: a run of terminators is one separator.
    [in_run] tells that the previous character was a terminator. *)
Fixpoint re_split_punct (in_run : bool) (cur : str) (s : str) : list str :=
  match s with
  | [] => [rev cur]
  | c :: r =>
      if is_terminator c then
        if in_run then re_split_punct true cur r
        else rev cur :: re_split_punct true [] r
      else re_split_punct false (c :: cur) r
  end.

(** [nltk.sent_tokenize] is a parameter: [None] stands for a raised
    exception, which sends [_split_sentences] to its fallback. *)
Definition Tokenizer := str -> option (list str).

Definition _split_sentences (sent_tokenize : Tokenizer) (t : str) : list str :=
  match sent_tokenize t with
  | Some sentences => strip_nonblank sentences
  | None => strip_nonblank (re_split_punct false [] t)
  end.

(** ** Dynamic chunking *)

(** The variables [chunks], [chunk_index] and [current_position] of
    [dynamic_chunking]. *)
Record Acc := mkAcc {
  acc_chunks : list Chunk;
  chunk_index : Z;
  current_position : Z
}.

(** [chunks.append(chunk); chunk_index += 1;
     current_position += len(chunk_text) + 1]. *)
Definition emit (a : Acc) (c : Chunk) : Acc :=
  mkAcc (acc_chunks a ++ [c]) (chunk_index a + 1)
        (current_position a + (len (text c) + 1)).

Definition multi_sentence_chunk (a : Acc) (current_chunk : list str)
    (current_size : Z) : Chunk :=
  let chunk_text := join [SP] current_chunk in
  mkChunk chunk_text (chunk_index a) (current_position a)
    (current_position a + len chunk_text)
    [("strategy", MStr "dynamic");
     ("type", MStr "multi-sentence");
     ("sentence_count", MInt (len current_chunk));
     ("word_count", MInt current_size)]%string.

Definition paragraph_chunk (a : Acc) (para : str) : Chunk :=
  mkChunk para (chunk_index a) (current_position a)
    (current_position a + len para)
    [("strategy", MStr "dynamic");
     ("type", MStr "paragraph");
     ("word_count", MInt (len (split para)))]%string.

(** The variables of the inner loop: the accumulator, [current_chunk]
    and [current_size]. *)
Definition SentState : Type := Acc * list str * Z.

(** One iteration of [for sentence in sentences]. *)
Definition sentence_step (chunk_size : Z) (st : SentState) (sentence : str)
  : SentState :=
  let '(a, current_chunk, current_size) := st in
  let sentence_size := len (split sentence) in
  let '(a, current_chunk, current_size) :=
    if (current_size + sentence_size >? chunk_size) && truthy current_chunk
    then (emit a (multi_sentence_chunk a current_chunk current_size), [], 0)
    else (a, current_chunk, current_size) in
  (a, current_chunk ++ [sentence], current_size + sentence_size).

(** One iteration of [for para in paragraphs]. *)
Definition paragraph_step (sent_tokenize : Tokenizer) (chunk_size : Z)
    (a : Acc) (para : str) : Acc :=
  if negb (truthy (strip para)) then a
  else if len (split para) >? chunk_size then
    let sentences := _split_sentences sent_tokenize para in
    let '(a, current_chunk, current_size) :=
      fold_left (sentence_step chunk_size) sentences (a, [], 0) in
    if truthy current_chunk
    then emit a (multi_sentence_chunk a current_chunk current_size)
    else a
  else emit a (paragraph_chunk a para).

Definition dynamic_chunking (sent_tokenize : Tokenizer)
    (self : ChunkingService) (t : str) : list Chunk :=
  acc_chunks
    (fold_left (paragraph_step sent_tokenize (default_chunk_size self))
       (_split_paragraphs t) (mkAcc [] 0 0)).

(** ** Complexity and structure *)

(** Case of a code point. The table covers the ASCII letters; the other
    code points count as uncased, which is exact for Arabic script. *)
Definition is_upper_char (c : char) : bool := in_range 65 90 c.
Definition is_lower_char (c : char) : bool := in_range 97 122 c.

(** [str.lower()]. *)
Definition lower (s : str) : str :=
  List.map (fun c => if is_upper_char c then (c + 32)%N else c) s.

(** [str.isupper()]: a cased character occurs and no cased character is
    lowercase. *)
Definition isupper (s : str) : bool :=
  existsb is_upper_char s && forallb (fun c => negb (is_lower_char c)) s.

(** [s.endswith(':')]. *)
Definition endswith_colon (s : str) : bool :=
  match rev s with
  | c :: _ => (c =? 58)%N
  | [] => false
  end.

(** The class [\d] on the digits of ASCII, Arabic-Indic and Extended
    Arabic-Indic. *)
Definition isdecimal (c : char) : bool :=
  in_range 48 57 c || in_range 1632 1641 c || in_range 1776 1785 c.

(** The class [[\-\*\•\d]]. *)
Definition is_list_marker (c : char) : bool :=
  (c =? 45)%N || (c =? 42)%N || (c =? 8226)%N || isdecimal c.

(** The class [[\.\)]]. *)
Definition is_list_closer (c : char) : bool := (c =? 46)%N || (c =? 41)%N.

Fixpoint skip_markers (s : str) : str :=
  match s with
  | [] => []
  | c :: r => if is_list_marker c then skip_markers r else s
  end.

(** [list_pattern.match(line)] for [^\s*[\-\*\•\d]+[\.\)]\s+]. The three
    classes are pairwise disjoint, so the greedy scan is the only way
    to match. *)
Definition list_pattern_match (line : str) : bool :=
  let after_space := lstrip line in
  let after_markers := skip_markers after_space in
  (length after_markers <? length after_space)%nat
  && match after_markers with
     | c :: d :: _ => is_list_closer c && isspace d
     | _ => false
     end.

(** The test of the first loop of [_has_structural_elements] on one
    line. *)
Definition is_heading (line : str) : bool :=
  let line := strip line in
  truthy line
  && (len (split line) <? 10)
  && (isupper line || endswith_colon line).

Definition _has_structural_elements (t : str) : bool :=
  let lines := split_on NL t in
  if existsb is_heading lines then true
  else existsb list_pattern_match lines.

(** [sum(len(s.split()) for s in sentences)]. *)
Definition total_words (sentences : list str) : Z :=
  fold_right Z.add 0 (List.map (fun s => len (split s)) sentences).

(** [min(avg_sentence_length / 30, 1.0)]. *)
Definition length_score (sentences : list str) : Q :=
  let avg_sentence_length :=
    (inject_Z (total_words sentences) / inject_Z (len sentences))%Q in
  Qmin (avg_sentence_length / 30) 1.

(** [len(set(words)) / len(words)], or [0.0] without words. *)
Definition diversity_score (t : str) : Q :=
  let words := split (lower t) in
  if truthy words then
    (inject_Z (Z.of_nat (size (list_to_set words : gset str)))
     / inject_Z (len words))%Q
  else 0%Q.

Definition _calculate_complexity (sent_tokenize : Tokenizer) (t : str) : Q :=
  let sentences := _split_sentences sent_tokenize t in
  if negb (truthy sentences) then 0%Q
  else ((length_score sentences + diversity_score t) / 2)%Q.

(** ** Strategy selection *)

(** [a > b] on floats. *)
Definition Qgtb (a b : Q) : bool := negb (Qle_bool a b).

(** The metadata only feeds the log line, which is not modelled. *)
Definition decide_strategy (sent_tokenize : Tokenizer) (self : ChunkingService)
    (t : str) (metadata : gmap string MetaVal) : string :=
  let complexity_score := _calculate_complexity sent_tokenize t in
  let has_structure := _has_structural_elements t in
  let language := default (MStr "unknown") (metadata !! "language"%string) in
  if Qgtb complexity_score (6 # 10) || has_structure
  then "dynamic"%string
  else "fixed"%string.

(** ** The relational rows and the collaborators of retrieval *)

Module Models.

(** [Document] of models/document.py (the columns retrieval reads, and
    the other scalar columns). *)
Module Document.
Record t := mk {
  id : str;
  filename : str;
  file_type : str;
  file_size : Z;
  language : str;
  chunking_strategy : str;
  total_chunks : Z
}.
End Document.

(** [Chunk] of models/document.py. *)
Module Chunk.
Record t := mk {
  id : str;
  document_id : str;
  chunk_index : Z;
  chunk_text : str;
  chunk_size : Z
}.
End Chunk.

End Models.

Import Models.

(** What [collection.query] of the vector store returns for the single
    query vector: one list of ids and, when present, one list of
    distances. *)
Record QueryResult := mkQueryResult {
  ids : list (list str);
  distances : option (list (list Q))
}.

(** The two tables, in the order a scan without [ORDER BY] returns the
    rows. *)
Record Database := mkDatabase {
  documents : list Document.t;
  chunks : list Chunk.t
}.

(** Everything outside the service during one request. [None] stands
    for a collaborator that raises. *)
Record World := mkWorld {
  clock : nat -> Q;
  generate_embedding : str -> option (list Q);
  collection_query : list Q -> Z -> option str -> option QueryResult;
  database : option Database
}.

Inductive Exn :=
| EmbeddingError
| VectorStoreError
| DatabaseError.

Inductive Event :=
| EvEmbed (query : str)
| EvVectorQuery (n_results : Z) (where_document_id : option str)
| EvChunkDetails (chunk_ids : list str)
| EvGetDocument (document_id : str).

(** Number of clock readings so far, and the calls made to the
    collaborators, oldest first. *)
Record St := mkSt {
  ticks : nat;
  trace : list Event
}.

Inductive Outcome (A : Type) :=
| Returned (a : A)
| Raised (e : Exn).
Arguments Returned {A} a.
Arguments Raised {A} e.

(** Computations that read the clock, call collaborators and may raise. *)
Definition M (A : Type) : Type := St -> Outcome A * St.

Definition ret {A} (a : A) : M A := fun st => (Returned a, st).

Definition bind {A B} (m : M A) (k : A -> M B) : M B :=
  fun st =>
    match m st with
    | (Returned a, st') => k a st'
    | (Raised e, st') => (Raised e, st')
    end.

Notation "x <- c1 ;; c2" := (bind c1 (fun x => c2))
  (at level 100, c1 at next level, right associativity).

Definition log_event (e : Event) (st : St) : St :=
  mkSt (ticks st) (trace st ++ [e]).

(** A call to a collaborator: logged, then answered or raised. *)
Definition call {A} (e : Event) (x : Exn) (answer : option A) : M A :=
  fun st =>
    match answer with
    | Some a => (Returned a, log_event e st)
    | None => (Raised x, log_event e st)
    end.

(** [time.time()]. *)
Definition time (w : World) : M Q :=
  fun st => (Returned (clock w (ticks st)), mkSt (S (ticks st)) (trace st)).

(** [for x in l: s = body(s, x)]. *)
Fixpoint for_each {A S} (body : S -> A -> M S) (l : list A) (s : S) : M S :=
  match l with
  | [] => ret s
  | x :: r => s' <- body s x ;; for_each body r s'
  end.

(** [enumerate(l)]. *)
Definition enumerate {A} (l : list A) : list (nat * A) :=
  imap (fun i x => (i, x)) l.

(** ** Storage service *)

Definition search_similar_chunks (w : World) (query_embedding : list Q)
    (top_k : Z) (document_id : option str) : M QueryResult :=
  let where_ :=
    match document_id with
    | Some d => if truthy d then Some d else None
    | None => None
    end in
  call (EvVectorQuery top_k where_) VectorStoreError
       (collection_query w query_embedding top_k where_).

(** [db.query(Chunk).filter(Chunk.id.in_(chunk_ids)).all()]: the rows of
    the table whose id is listed, in table order. *)
Definition get_chunk_details (w : World) (chunk_ids : list str)
  : M (list Chunk.t) :=
  call (EvChunkDetails chunk_ids) DatabaseError
       (db ← database w;
        Some (List.filter (fun c => bool_decide (Chunk.id c ∈ chunk_ids))
                (chunks db))).

(** [db.query(Document).filter(Document.id == document_id).first()]. *)
Definition get_document (w : World) (document_id : str)
  : M (option Document.t) :=
  call (EvGetDocument document_id) DatabaseError
       (db ← database w;
        Some (List.find (fun d => bool_decide (Document.id d = document_id))
                (documents db))).

(** ** Retrieval *)

(** Rounding half to even of a rational to an integer. *)
Definition round_half_even (x : Q) : Z :=
  let f := Qfloor x in
  match (x - inject_Z f ?= 1 # 2)%Q with
  | Lt => f
  | Gt => f + 1
  | Eq => if Z.even f then f else f + 1
  end.

(** [round(x, ndigits)]. *)
Definition round (x : Q) (ndigits : nat) : Q :=
  let scale := inject_Z (10 ^ Z.of_nat ndigits) in
  (inject_Z (round_half_even (x * scale)) / scale)%Q.

(** One entry of [results]: the keys of the dictionary. *)
Module Result.
Record t := mk {
  chunk_id : str;
  document_id : str;
  document_name : str;
  chunk_text : str;
  similarity_score : Q;
  chunk_index : Z
}.
End Result.

(** The dictionary [semantic_search] and [hybrid_search] return. *)
Module Response.
Record t := mk {
  query : str;
  results : list Result.t;
  total_results : Z;
  processing_time : Q
}.
End Response.

(** [1.0 - (distances[i] if i < len(distances) else 1.0)]. *)
Definition similarity (distances : list Q) (i : nat) : Q :=
  (1 - (if Z.of_nat i <? len distances then default 0%Q (distances !! i)
        else 1))%Q.

(** The body of [for i, chunk in enumerate(chunks)]. *)
Definition build_result (w : World) (distances : list Q)
    (results : list Result.t) (ic : nat * Chunk.t) : M (list Result.t) :=
  let '(i, chunk) := ic in
  let similarity_score := similarity distances i in
  document <- get_document w (Chunk.document_id chunk) ;;
  let result :=
    Result.mk (Chunk.id chunk) (Chunk.document_id chunk)
      (match document with
       | Some d => Document.filename d
       | None => lit "Unknown"
       end)
      (Chunk.chunk_text chunk)
      (round similarity_score 4)
      (Chunk.chunk_index chunk) in
  ret (results ++ [result]).

(** [x[0] if x else []]. *)
Definition first_or_empty {A} (x : list (list A)) : list A :=
  match x with
  | [] => []
  | y :: _ => y
  end.

Definition semantic_search (w : World) (query : str) (top_k : Z)
    (document_id : option str) : M Response.t :=
  start_time <- time w ;;
  query_embedding <- call (EvEmbed query) EmbeddingError
                       (generate_embedding w query) ;;
  vector_results <- search_similar_chunks w query_embedding top_k
                      document_id ;;
  let chunk_ids := first_or_empty (ids vector_results) in
  if negb (truthy chunk_ids) then
    now <- time w ;;
    ret (Response.mk query [] 0 (now - start_time)%Q)
  else
    chunks <- get_chunk_details w chunk_ids ;;
    let distances :=
      match distances vector_results with
      | Some d => first_or_empty d
      | None => []
      end in
    results <- for_each (build_result w distances) (enumerate chunks) [] ;;
    now <- time w ;;
    let processing_time := (now - start_time)%Q in
    ret (Response.mk query results (len results) (round processing_time 3)).

(** [filters.get('document_id') if filters else None]; an empty
    dictionary is false. *)
Definition filter_document_id (filters : option (gmap string str))
  : option str :=
  match filters with
  | Some d => if bool_decide (d = ∅) then None else d !! "document_id"%string
  | None => None
  end.

(** The body of [for result in results['results']] in [hybrid_search]. *)
Definition keep_language (w : World) (language_filter : str)
    (filtered_results : list Result.t) (result : Result.t)
  : M (list Result.t) :=
  doc <- get_document w (Result.document_id result) ;;
  match doc with
  | Some d =>
      if bool_decide (Document.language d = language_filter)
      then ret (filtered_results ++ [result])
      else ret filtered_results
  | None => ret filtered_results
  end.

Definition hybrid_search (w : World) (query : str) (top_k : Z)
    (filters : option (gmap string str)) : M Response.t :=
  let document_id := filter_document_id filters in
  results <- semantic_search w query top_k document_id ;;
  match filters with
  | Some d =>
      match (if bool_decide (d = ∅) then None else d !! "language"%string) with
      | Some language_filter =>
          filtered_results <-
            for_each (keep_language w language_filter) (Response.results results) [] ;;
          ret (Response.mk (Response.query results) filtered_results
                 (len filtered_results) (Response.processing_time results))
      | None => ret results
      end
  | None => ret results
  end.

(** ** Definitions used by the statements *)

(** A string without whitespace. *)
Definition visible (w : str) : Prop := Forall (fun c => isspace c = false) w.

(** A word as [split] returns them: not empty, no whitespace. *)
Definition is_word (w : str) : Prop := w <> [] /\ visible w.

(** Closed form of the loop of [fixed_chunking] for a positive step:
    the chunks of the windows starting at [s], [s + step], ... below
    [len words]. *)
Definition fixed_windows (words : list str) (chunk_size step s idx : Z)
  : list Chunk :=
  (fun j : nat =>
     fixed_chunk words chunk_size (s + Z.of_nat j * step) (idx + Z.of_nat j))
  <$> seq 0 (Z.to_nat ((len words - s + step - 1) / step)).

(** The text of scenario 1: twenty words. *)
Definition twenty_words : str :=
  lit "w1 w2 w3 w4 w5 w6 w7 w8 w9 w10 w11 w12 w13 w14 w15 w16 w17 w18 w19 w20".

(** Offsets of a chunk sequence: every chunk ends [len(text)] after its
    start, and the starts do not decrease along the sequence. *)
Definition offsets_ok (cs : list Chunk) : Prop :=
  (forall c, c ∈ cs -> end_char c = start_char c + len (text c))
  /\ (forall (i j : nat) c c',
        (i <= j)%nat -> cs !! i = Some c -> cs !! j = Some c' ->
        start_char c <= start_char c').

(** A chunk within the soft cap: its text is not empty, and if it has
    more than [chunk_size] words it is one sentence satisfying [sent]. *)
Definition soft_capped (sent : str -> Prop) (chunk_size : Z) (c : Chunk) : Prop :=
  text c <> []
  /\ (chunk_size < len (split (text c)) ->
      sent (text c) /\ In ("sentence_count"%string, MInt 1) (metadata c)).

(** Invariant of [for sentence in sentences]: the buffer holds
    sentences, [current_size] is their word count, and the buffer is
    empty, within the budget, or a single sentence. *)
Definition sent_inv (sent : str -> Prop) (chunk_size : Z) (st : SentState)
  : Prop :=
  let '(a, current_chunk, current_size) := st in
  Forall (soft_capped sent chunk_size) (acc_chunks a)
  /\ current_size = total_words current_chunk
  /\ Forall (fun s => sent s /\ s <> []) current_chunk
  /\ (current_chunk = [] \/ current_size <= chunk_size
      \/ exists s, current_chunk = [s]).

(** The offsets invariant of the accumulator. *)
Definition acc_offsets_ok (a : Acc) : Prop :=
  offsets_ok (acc_chunks a)
  /\ (forall c, c ∈ acc_chunks a -> start_char c <= current_position a).

(** One paragraph of two sentences, of three and four words. *)
Definition long_paragraph : str := lit "one two three. four five six seven.".









(** The [where] clause [search_similar_chunks] builds. *)
Definition where_clause (document_id : option str) : option str :=
  match document_id with
  | Some d => if truthy d then Some d else None
  | None => None
  end.

(** The rows [get_chunk_details] selects. *)
Definition chunk_details (db : Database) (chunk_ids : list str) : list Chunk.t :=
  List.filter (fun c => bool_decide (Chunk.id c ∈ chunk_ids)) (chunks db).

(** The row [get_document] selects. *)
Definition document_of (db : Database) (document_id : str) : option Document.t :=
  List.find (fun d => bool_decide (Document.id d = document_id)) (documents db).

(** The result [build_result] appends for the chunk at rank [i]. *)
Definition result_of (db : Database) (distances : list Q) (i : nat)
    (chunk : Chunk.t) : Result.t :=
  Result.mk (Chunk.id chunk) (Chunk.document_id chunk)
    (match document_of db (Chunk.document_id chunk) with
     | Some d => Document.filename d
     | None => lit "Unknown"
     end)
    (Chunk.chunk_text chunk)
    (round (similarity distances i) 4)
    (Chunk.chunk_index chunk).

(** The distances the vector store returns for a query, as
    [semantic_search] reads them. *)
Definition returned_distances (vector_results : QueryResult) : list Q :=
  match distances vector_results with
  | Some d => first_or_empty d
  | None => []
  end.

(** What the vector store answers to the query of [semantic_search]. *)
Definition store_answer (w : World) (query : str) (top_k : Z)
    (document_id : option str) : option QueryResult :=
  e ← generate_embedding w query;
  collection_query w e top_k (where_clause document_id).

(** The test of [hybrid_search] on one result. *)
Definition language_matches (db : Database) (language_filter : str)
    (r : Result.t) : bool :=
  match document_of db (Result.document_id r) with
  | Some d => bool_decide (Document.language d = language_filter)
  | None => false
  end.

(** [filters['language']] when [filters] is true and has the key. *)
Definition filter_language (filters : option (gmap string str)) : option str :=
  match filters with
  | Some d => if bool_decide (d = ∅) then None else d !! "language"%string
  | None => None
  end.

(** The calls to the vector store in a trace. *)
Definition vector_queries (tr : list Event) : list Event :=
  List.filter (fun e => match e with EvVectorQuery _ _ => true | _ => false end) tr.

(** The state after the first clock reading, the embedding call and the
    vector query of [semantic_search]. *)
Definition after_query (query : str) (top_k : Z) (document_id : option str)
    (st : St) : St :=
  mkSt (S (ticks st))
    (trace st ++ [EvEmbed query; EvVectorQuery top_k (where_clause document_id)]).

(** What [semantic_search] returns when the store lists no id. *)
Definition empty_response (w : World) (query : str) (st : St) : Response.t :=
  Response.mk query [] 0 (clock w (S (ticks st)) - clock w (ticks st))%Q.

(** What [semantic_search] returns when the store lists ids. *)
Definition found_response (w : World) (db : Database) (query : str)
    (vector_results : QueryResult) (st : St) : Response.t :=
  let results :=
    imap (result_of db (returned_distances vector_results))
      (chunk_details db (first_or_empty (ids vector_results))) in
  Response.mk query results (len results)
    (round (clock w (S (ticks st)) - clock w (ticks st))%Q 3).

(** One English document with two chunks. *)
Definition doc_en : Document.t :=
  Document.mk (lit "d1") (lit "report.txt") (lit "txt") 24 (lit "english")
    (lit "fixed") 2.

Definition chunk_a : Chunk.t :=
  Chunk.mk (lit "a") (lit "d1") 0 (lit "first chunk") 11.

Definition chunk_b : Chunk.t :=
  Chunk.mk (lit "b") (lit "d1") 1 (lit "second chunk") 12.

(** The table holds chunk a before chunk b; the vector store ranks b
    (distance 0.1) before a (distance 0.9). *)
Definition ranked_b_first : World :=
  mkWorld (fun _ => 0%Q) (fun _ => Some [])
    (fun _ _ _ =>
       Some (mkQueryResult [[lit "b"; lit "a"]] (Some [[1 # 10; 9 # 10]]%Q)))
    (Some (mkDatabase [doc_en] [chunk_a; chunk_b])).

(** The same store when the vector store ranks a before b. *)
Definition ranked_a_first : World :=
  mkWorld (fun _ => 0%Q) (fun _ => Some [])
    (fun _ _ _ =>
       Some (mkQueryResult [[lit "a"; lit "b"]] (Some [[1 # 10; 9 # 10]]%Q)))
    (Some (mkDatabase [doc_en] [chunk_a; chunk_b])).

(** Nothing is stored; the two clock readings are 0 and 0.0012345. *)
Definition nothing_stored : World :=
  mkWorld (fun n => match n with O => 0 | _ => 12345 # 10000000 end%Q)
    (fun _ => Some [])
    (fun _ _ _ => Some (mkQueryResult [[]] (Some [[]])))
    (Some (mkDatabase [] [])).

(** The state at the start of a request. *)
Definition st0 : St := mkSt 0 [].

(** The filters [{'language': 'arabic'}]. *)
Definition language_arabic : gmap string str :=
  {[ "language"%string := lit "arabic" ]}.

(** ** Strategy dispatch *)

(** [d.get(key)] on a dictionary kept as an association list. *)
Fixpoint dict_get {V} (key : string) (d : list (string * V)) : option V :=
  match d with
  | [] => None
  | (k, v) :: r => if String.eqb k key then Some v else dict_get key r
  end.

(** [chunk_text] returns the chunks or raises
    [ValueError("Unknown strategy: ...")]. *)
Inductive ChunkTextResult :=
| Chunks (chunks : list Chunk)
| UnknownStrategy (strategy : string).

(** [chunk_text]; [None] when [fixed_chunking] runs out of fuel. *)
Definition chunk_text (fuel : nat) (sent_tokenize : Tokenizer)
    (self : ChunkingService) (t : str) (strategy : string)
    (metadata : option (gmap string MetaVal)) : option ChunkTextResult :=
  let metadata := match metadata with Some m => m | None => ∅ end in
  let strategy :=
    if String.eqb strategy "auto"
    then decide_strategy sent_tokenize self t metadata
    else strategy in
  if String.eqb strategy "fixed" then
    option_map Chunks (fixed_chunking fuel self t)
  else if String.eqb strategy "dynamic" then
    Some (Chunks (dynamic_chunking sent_tokenize self t))
  else Some (UnknownStrategy strategy).

(** ** Document processor *)

(** The class [[\u0600-\u06FF]]. *)
Definition is_arabic_char (c : char) : bool := in_range 1536 1791 c.

(** The class [[a-zA-Z]]. *)
Definition is_english_char (c : char) : bool :=
  in_range 97 122 c || in_range 65 90 c.

Definition detect_language (t : str) : string :=
  let has_arabic := existsb is_arabic_char t in
  let has_english := existsb is_english_char t in
  if has_arabic && has_english then "mixed"%string
  else if has_arabic then "arabic"%string
  else if has_english then "english"%string
  else "unknown"%string.

(** The class [[\u064B-\u0652\u0670]]. *)
Definition is_diacritic (c : char) : bool :=
  in_range 1611 1618 c || (c =? 1648)%N.

Definition validate_arabic_diacritics (t : str) : bool :=
  existsb is_diacritic t.

(** What python-docx shows of a document: the texts of its paragraphs
    and, per table, per row, the texts of the cells. *)
Record Docx := mkDocx {
  docx_paragraphs : list str;
  docx_tables : list (list (list str))
}.

(** What the file system and the extraction libraries answer for one
    path. [None] stands for a raised exception; a page without text is
    [None] in the list of pages. *)
Record File := mkFile {
  file_exists : bool;
  file_name : str;
  file_suffix : str;
  st_size : Z;
  pypdf2_pages : option (list (option str));
  pdfplumber_pages : option (list (option str));
  docx_document : option Docx;
  chardet_encoding : option (option str);
  read_text : option str -> option str
}.

Inductive ProcessError :=
| FileNotFoundError
| UnsupportedFormat (file_extension : str)
| ExtractionError.

(** [for page in pages: page_text = page.extract_text();
     if page_text: text += page_text + "\n"]. *)
Definition pages_text (pages : list (option str)) : str :=
  fold_left
    (fun text page_text =>
       match page_text with
       | Some p => if truthy p then text ++ p ++ [NL] else text
       | None => text
       end)
    pages [].

Definition extract_pdf (f : File) : ProcessError + (str * Z) :=
  match pypdf2_pages f with
  | None => inl ExtractionError
  | Some pages =>
      let text := pages_text pages in
      let page_count := len pages in
      if len (strip text) <? 100 then
        match pdfplumber_pages f with
        | None => inl ExtractionError
        | Some pages' => inr (strip (pages_text pages'), len pages')
        end
      else inr (strip text, page_count)
  end.

Definition extract_docx (f : File) : ProcessError + (str * Z) :=
  match docx_document f with
  | None => inl ExtractionError
  | Some doc =>
      let paragraphs :=
        List.filter (fun p => truthy (strip p)) (docx_paragraphs doc) in
      let text := join [NL] paragraphs in
      let text :=
        fold_left
          (fun text cell =>
             if truthy (strip cell) then text ++ [NL] ++ cell else text)
          (concat (concat (docx_tables doc))) text in
      inr (strip text, len paragraphs)
  end.

(** The [except] branch of [extract_txt]: read as UTF-8 or raise. *)
Definition extract_txt_fallback (f : File) : ProcessError + (str * Z) :=
  match read_text f (Some (lit "utf-8")) with
  | Some text => inr (strip text, len (split_on NL text))
  | None => inl ExtractionError
  end.

Definition extract_txt (f : File) : ProcessError + (str * Z) :=
  match chardet_encoding f with
  | Some encoding =>
      match read_text f encoding with
      | Some text => inr (strip text, len (split_on NL text))
      | None => extract_txt_fallback f
      end
  | None => extract_txt_fallback f
  end.

Definition supported_formats : list str :=
  [lit ".pdf"; lit ".docx"; lit ".doc"; lit ".txt"].

(** The dictionary [process_file] returns. *)
Module Processed.
Record t := mk {
  text : str;
  filename : str;
  file_type : str;
  file_size : Z;
  language : string;
  page_count : Z;
  has_arabic_diacritics : bool;
  character_count : Z;
  word_count : Z
}.
End Processed.

(** [s.replace('.', '')]. *)
Definition remove_dots (s : str) : str :=
  List.filter (fun c => negb (c =? 46)%N) s.

Definition process_file (f : File) : ProcessError + Processed.t :=
  if negb (file_exists f) then inl FileNotFoundError
  else
    let file_extension := lower (file_suffix f) in
    if negb (bool_decide (file_extension ∈ supported_formats)) then
      inl (UnsupportedFormat file_extension)
    else
      let extracted :=
        if bool_decide (file_extension = lit ".pdf") then extract_pdf f
        else if bool_decide (file_extension ∈ [lit ".docx"; lit ".doc"]) then
          extract_docx f
        else if bool_decide (file_extension = lit ".txt") then extract_txt f
        else inl (UnsupportedFormat file_extension) in
      match extracted with
      | inl e => inl e
      | inr (text, page_count) =>
          let language := detect_language text in
          let has_diacritics :=
            if String.eqb language "arabic"
            then validate_arabic_diacritics text
            else false in
          inr (Processed.mk text (file_name f) (remove_dots file_extension)
                 (st_size f) language page_count has_diacritics
                 (len text) (len (split text)))
      end.

(** ** Context for a query *)






(** ** The two stores and the operations that write them *)

(** Values of the JSON columns and of the vector-store metadata. *)
Inductive Json :=
| JStr (s : str)
| JInt (z : Z)
| JBool (b : bool).

(** A row of [documents] with its [doc_metadata] column ([upload_date]
    is not modelled). *)
Record DocumentRow := mkDocumentRow {
  dr_row : Document.t;
  dr_metadata : list (string * Json)
}.

(** A row of [chunks] with its [chunk_metadata] column. *)
Record ChunkRow := mkChunkRow {
  cr_row : Chunk.t;
  cr_metadata : list (string * Json)
}.

(** One entry of the vector collection. *)
Record VectorEntry := mkVectorEntry {
  ve_id : str;
  ve_embedding : list Q;
  ve_document : str;
  ve_metadata : list (string * Json)
}.

(** The relational tables in insertion order, the vector collection,
    and the number of identifiers [uuid.uuid4()] has produced. *)
Record Stores := mkStores {
  sql_documents : list DocumentRow;
  sql_chunks : list ChunkRow;
  collection : list VectorEntry;
  uuid_calls : nat
}.

(** What is outside the storage service during one call: the
    identifiers [uuid.uuid4()] produces, whether the database carries
    out the statements of the call (it raises otherwise), and whether
    the vector store accepts an [add] or a [delete]. Primary and foreign
    keys are enforced by the database, as PostgreSQL does; the rows of a
    table are read in insertion order. *)
Record StoreEnv := mkStoreEnv {
  uuid4 : nat -> str;
  sql_available : bool;
  collection_add_ok : list VectorEntry -> bool;
  collection_delete_ok : list str -> bool
}.

Inductive StoreExn :=
| SqlError
| IntegrityError
| VectorError.

Inductive Try (A : Type) :=
| Done (a : A)
| Failed (e : StoreExn).
Arguments Done {A} a.
Arguments Failed {A} e.

Definition document_ids (s : Stores) : list str :=
  List.map (fun d => Document.id (dr_row d)) (sql_documents s).

Definition chunk_ids_of (s : Stores) : list str :=
  List.map (fun c => Chunk.id (cr_row c)) (sql_chunks s).

(** [d or {}]. *)
Definition or_empty {A} (d : option (list A)) : list A :=
  match d with
  | Some x => x
  | None => []
  end.

(** [store_document]: the row is committed unless the database is down
    or the primary key is taken; a failed commit is rolled back. *)
Definition store_document (env : StoreEnv) (filename file_type : str)
    (file_size : Z) (language chunking_strategy : str) (total_chunks : Z)
    (metadata : option (list (string * Json))) (s : Stores)
  : Try str * Stores :=
  let id := uuid4 env (uuid_calls s) in
  let s1 := mkStores (sql_documents s) (sql_chunks s) (collection s)
              (S (uuid_calls s)) in
  let document :=
    mkDocumentRow
      (Document.mk id filename file_type file_size language chunking_strategy
         total_chunks)
      (or_empty metadata) in
  if negb (sql_available env) then (Failed SqlError, s1)
  else if bool_decide (id ∈ document_ids s) then (Failed IntegrityError, s1)
  else
    (Done id,
     mkStores (sql_documents s ++ [document]) (sql_chunks s) (collection s)
       (S (uuid_calls s))).

(** One element of the list [store_chunks] receives. *)
Record ChunkData := mkChunkData {
  cd_text : str;
  cd_index : Z;
  cd_metadata : option (list (string * Json))
}.

(** [d[key] = value] on a dictionary kept as an association list. *)
Fixpoint dict_set {V} (key : string) (value : V) (d : list (string * V))
  : list (string * V) :=
  match d with
  | [] => [(key, value)]
  | (k, v) :: r =>
      if String.eqb k key then (k, value) :: r
      else (k, v) :: dict_set key value r
  end.

(** [{'document_id': ..., 'chunk_index': ..., **metadata}]. *)
Definition vector_metadata (document_id : str) (chunk : ChunkData)
  : list (string * Json) :=
  fold_left (fun d kv => dict_set (fst kv) (snd kv) d)
    (or_empty (cd_metadata chunk))
    [("document_id"%string, JStr document_id);
     ("chunk_index"%string, JInt (cd_index chunk))].

(** The rows the loop of [store_chunks] adds to the session, with the
    identifiers [uuid4] produces from call number [n] on. *)
Fixpoint new_chunk_rows (env : StoreEnv) (n : nat) (document_id : str)
    (chunks : list ChunkData) : list ChunkRow :=
  match chunks with
  | [] => []
  | chunk_data :: r =>
      mkChunkRow
        (Chunk.mk (uuid4 env n) document_id (cd_index chunk_data)
           (cd_text chunk_data) (len (cd_text chunk_data)))
        (or_empty (cd_metadata chunk_data))
      :: new_chunk_rows env (S n) document_id r
  end.

(** The entries [collection.add] receives: the i-th id with the i-th
    embedding, text and metadata. *)
Fixpoint new_entries (document_id : str) (chunk_ids : list str)
    (embeddings : list (list Q)) (chunks : list ChunkData) : list VectorEntry :=
  match chunk_ids, embeddings, chunks with
  | id :: ids, e :: es, c :: cs =>
      mkVectorEntry id e (cd_text c) (vector_metadata document_id c)
      :: new_entries document_id ids es cs
  | _, _, _ => []
  end.

(** [store_chunks]: the rows are committed together unless the database
    is down, a primary key is taken or the document is missing (foreign
    key); then the entries are added to the collection. A failure of
    the collection comes after the commit, which is not undone. *)
Definition store_chunks (env : StoreEnv) (document_id : str)
    (chunks : list ChunkData) (embeddings : list (list Q)) (s : Stores)
  : Try unit * Stores :=
  let rows := new_chunk_rows env (uuid_calls s) document_id chunks in
  let chunk_ids := List.map (fun c => Chunk.id (cr_row c)) rows in
  let n := (uuid_calls s + length chunks)%nat in
  let s1 := mkStores (sql_documents s) (sql_chunks s) (collection s) n in
  if negb (sql_available env) then (Failed SqlError, s1)
  else if negb (bool_decide (NoDup (chunk_ids_of s ++ chunk_ids))) then
    (Failed IntegrityError, s1)
  else if truthy chunks && negb (bool_decide (document_id ∈ document_ids s))
  then (Failed IntegrityError, s1)
  else
    let s2 := mkStores (sql_documents s) (sql_chunks s ++ rows)
                (collection s) n in
    let entries := new_entries document_id chunk_ids embeddings chunks in
    if collection_add_ok env entries then
      (Done tt,
       mkStores (sql_documents s) (sql_chunks s ++ rows)
         (collection s ++ entries) n)
    else (Failed VectorError, s2).

(** [get_all_documents]. *)
Definition get_all_documents (env : StoreEnv) (s : Stores)
  : Try (list DocumentRow) :=
  if sql_available env then Done (sql_documents s) else Failed SqlError.

(** [delete_document]: the document row and, by the cascade of the
    [chunks] relationship, its chunk rows are deleted and committed;
    then the chunk ids are deleted from the collection. *)
Definition delete_document (env : StoreEnv) (document_id : str) (s : Stores)
  : Try unit * Stores :=
  if negb (sql_available env) then (Failed SqlError, s)
  else
    let chunks :=
      List.filter
        (fun c => bool_decide (Chunk.document_id (cr_row c) = document_id))
        (sql_chunks s) in
    let chunk_ids := List.map (fun c => Chunk.id (cr_row c)) chunks in
    let document :=
      List.find (fun d => bool_decide (Document.id (dr_row d) = document_id))
        (sql_documents s) in
    let s1 :=
      match document with
      | Some _ =>
          mkStores
            (List.filter
               (fun d => negb (bool_decide (Document.id (dr_row d) = document_id)))
               (sql_documents s))
            (List.filter
               (fun c =>
                  negb (bool_decide (Chunk.document_id (cr_row c) = document_id)))
               (sql_chunks s))
            (collection s) (uuid_calls s)
      | None => s
      end in
    if truthy chunk_ids then
      if collection_delete_ok env chunk_ids then
        (Done tt,
         mkStores (sql_documents s1) (sql_chunks s1)
           (List.filter (fun e => negb (bool_decide (ve_id e ∈ chunk_ids)))
              (collection s1))
           (uuid_calls s1))
      else (Failed VectorError, s1)
    else (Done tt, s1).

(** The tables as the reading side sees them. *)
Definition database_of (env : StoreEnv) (s : Stores) : option Database :=
  if sql_available env then
    Some (mkDatabase (List.map dr_row (sql_documents s))
            (List.map cr_row (sql_chunks s)))
  else None.

(** ** The endpoint [DELETE /api/documents/{document_id}] *)

Module Api.

Inductive Response (A : Type) :=
| Ok (body : A)
| HTTPException (status_code : Z).
Arguments Ok {A} body.
Arguments HTTPException {A} status_code.

(** [delete_document] of the router: the document is looked up first;
    the 404 passes the handler, any other exception becomes a 500.
    The database is up or down for the whole request. *)
Definition delete_document (env : StoreEnv) (document_id : str) (s : Stores)
  : Response str * Stores :=
  match database_of env s with
  | None => (HTTPException 500, s)
  | Some db =>
      match document_of db document_id with
      | None => (HTTPException 404, s)
      | Some _ =>
          match delete_document env document_id s with
          | (Done _, s') =>
              (Ok (lit "Document " ++ document_id ++ lit " deleted successfully"),
               s')
          | (Failed _, s') => (HTTPException 500, s')
          end
      end
  end.

End Api.

(** ** Definitions used by the further statements *)

(** No whitespace at the head. *)
Definition no_lead (s : str) : Prop :=
  match s with
  | [] => True
  | c :: _ => isspace c = false
  end.

(** Characters spanned by a chunk sequence, one separator after each. *)
Definition span (cs : list Chunk) : Z :=
  fold_right (fun c acc => len (text c) + 1 + acc) 0 cs.

(** Layout of a chunk sequence from position 0 and index 0. *)
Definition laid_out (cs : list Chunk) : Prop :=
  forall (i : nat) (c : Chunk),
    cs !! i = Some c ->
    index c = Z.of_nat i /\ start_char c = span (take i cs).

(** The metadata a dynamic chunk carries. *)
Definition dynamic_metadata_ok (c : Chunk) : Prop :=
  dict_get "strategy" (metadata c) = Some (MStr "dynamic")
  /\ dict_get "word_count" (metadata c) = Some (MInt (len (split (text c))))
  /\ (dict_get "type" (metadata c) = Some (MStr "paragraph")
      \/ (dict_get "type" (metadata c) = Some (MStr "multi-sentence")
          /\ exists k, 1 <= k
                       /\ dict_get "sentence_count" (metadata c)
                          = Some (MInt k))).

(** The invariant of the accumulator of [dynamic_chunking]. *)
Definition acc_laid_out (a : Acc) : Prop :=
  laid_out (acc_chunks a)
  /\ chunk_index a = len (acc_chunks a)
  /\ current_position a = span (acc_chunks a)
  /\ Forall dynamic_metadata_ok (acc_chunks a).

(** The text of scenario 2: two short paragraphs. *)
Definition two_paragraphs : str :=
  lit "Para A." ++ [NL; NL] ++ lit "Para B.".

(** The language of a text made of two parts, from the languages of the
    parts. *)
Definition lang_join (a b : string) : string :=
  if String.eqb a "unknown" then b
  else if String.eqb b "unknown" then a
  else if String.eqb a b then a
  else "mixed"%string.

(** A text file read as UTF-8 that holds two Arabic letters and a
    fatha. *)
Definition arabic_txt : File :=
  mkFile true (lit "note.TXT") (lit ".TXT") 6 None None None
    (Some (Some (lit "utf-8")))
    (fun _ => Some ([1605%N; 1614%N; 1585%N] ++ [NL])).



(** A world whose embedding provider raises. *)
Definition embedding_down : World :=
  mkWorld (fun _ => 0%Q) (fun _ => None)
    (fun _ _ _ => Some (mkQueryResult [[lit "a"]] None))
    (Some (mkDatabase [doc_en] [chunk_a; chunk_b])).

Definition stores_agree (s : Stores) : Prop :=
  NoDup (document_ids s)
  /\ NoDup (chunk_ids_of s)
  /\ List.map ve_id (collection s) = chunk_ids_of s
  /\ Forall (fun c => Chunk.document_id (cr_row c) ∈ document_ids s)
       (sql_chunks s).

(** The chunk ids [delete_document] collects. *)
Definition chunk_ids_for (document_id : str) (s : Stores) : list str :=
  List.map (fun c => Chunk.id (cr_row c))
    (List.filter
       (fun c => bool_decide (Chunk.document_id (cr_row c) = document_id))
       (sql_chunks s)).

Definition other_documents (document_id : str) (s : Stores)
  : list DocumentRow :=
  List.filter
    (fun d => negb (bool_decide (Document.id (dr_row d) = document_id)))
    (sql_documents s).

Definition other_chunks (document_id : str) (s : Stores) : list ChunkRow :=
  List.filter
    (fun c => negb (bool_decide (Chunk.document_id (cr_row c) = document_id)))
    (sql_chunks s).

Definition other_entries (document_id : str) (s : Stores)
  : list VectorEntry :=
  List.filter
    (fun e => negb (bool_decide (ve_id e ∈ chunk_ids_for document_id s)))
    (collection s).

(** A later [DELETE] of the document answers 404 and changes nothing,
    whenever the database answers. *)
Definition not_found_again (document_id : str) (s : Stores) : Prop :=
  forall env,
    sql_available env = true ->
    Api.delete_document env document_id s = (Api.HTTPException 404, s).


(** Identifiers that differ in their last character. *)
Definition example_uuid4 (n : nat) : str :=
  lit "6f1c2b1e-0000-4000-8000-00000000000" ++ [N.of_nat (48 + n)].

Definition healthy : StoreEnv :=
  mkStoreEnv example_uuid4 true (fun _ => true) (fun _ => true).

(** The database answers, the vector store refuses. *)
Definition vector_store_down : StoreEnv :=
  mkStoreEnv example_uuid4 true (fun _ => false) (fun _ => false).

Definition empty_stores : Stores := mkStores [] [] [] 0.

(** The stores after one document has been stored. *)
Definition one_document : Stores :=
  snd (store_document healthy (lit "a.txt") (lit "txt") 11 (lit "english")
         (lit "fixed") 2 None empty_stores).

Definition two_chunks : list ChunkData :=
  [mkChunkData (lit "hello") 0
     (Some [("strategy"%string, JStr (lit "fixed"));
            ("chunk_index"%string, JInt 7)]);
   mkChunkData (lit "world") 1 None].

Definition two_embeddings : list (list Q) := [[1 # 2]; [1 # 3]].

(** The stores after the two chunks of the document have been stored. *)
Definition with_chunks : Stores :=
  snd (store_chunks healthy (example_uuid4 0) two_chunks two_embeddings
         one_document).

(** * Properties *)

(** ** Facts about the built-ins *)

Lemma len_nonneg {A} (l : list A) : 0 <= len l.
Proof. unfold len. lia. Qed.

Lemma len_app {A} (l1 l2 : list A) : len (l1 ++ l2) = len l1 + len l2.
Proof. unfold len. rewrite length_app. lia. Qed.

Lemma truthy_true {A} (l : list A) : truthy l = true <-> l <> [].
Proof. destruct l; simpl; split; congruence. Qed.

Lemma truthy_false {A} (l : list A) : truthy l = false <-> l = [].
Proof. destruct l; simpl; split; congruence. Qed.

Lemma split_from_sep (a b cur : str) :
  split_from cur (a ++ SP :: b) = split_from cur a ++ split b.
Proof.
  revert cur. induction a as [|c a IH]; intros cur; simpl.
  - destruct cur; reflexivity.
  - destruct (isspace c).
    + destruct cur; rewrite IH; reflexivity.
    + apply IH.
Qed.

Lemma split_join (l : list str) :
  split (join [SP] l) = concat (List.map split l).
Proof.
  induction l as [|x xs IH]; [reflexivity|].
  destruct xs as [|y ys].
  - simpl. rewrite app_nil_r. reflexivity.
  - change (join [SP] (x :: y :: ys)) with (x ++ SP :: join [SP] (y :: ys)).
    unfold split at 1. rewrite split_from_sep, IH. reflexivity.
Qed.

Lemma split_from_visible (w cur : str) :
  visible w -> split_from cur w = match rev w ++ cur with [] => [] | _ => [rev (rev w ++ cur)] end.
Proof.
  revert cur. induction w as [|c w IH]; intros cur Hw.
  - simpl. reflexivity.
  - inversion Hw as [|? ? Hc Hw']; subst. simpl. rewrite Hc.
    rewrite IH by assumption. rewrite <- app_assoc. reflexivity.
Qed.

Lemma split_word (w : str) : is_word w -> split w = [w].
Proof.
  intros [Hne Hv]. unfold split. rewrite split_from_visible by assumption.
  rewrite app_nil_r. destruct (rev w) eqn:E.
  - apply (f_equal (@rev _)) in E. rewrite rev_involutive in E. simpl in E. congruence.
  - rewrite <- E, rev_involutive. reflexivity.
Qed.

Lemma split_join_words (ws : list str) :
  Forall is_word ws -> split (join [SP] ws) = ws.
Proof.
  intros H. rewrite split_join. induction H as [|w ws Hw _ IH]; [reflexivity|].
  simpl. rewrite split_word by assumption. rewrite IH. reflexivity.
Qed.

Lemma split_from_words (s cur : str) :
  visible cur -> Forall is_word (split_from cur s).
Proof.
  revert cur. induction s as [|c s IH]; intros cur Hcur; simpl.
  - destruct cur eqn:E; constructor; [|constructor].
    rewrite <- E in *. split.
    + intros H. apply (f_equal (@rev _)) in H. rewrite rev_involutive in H.
      simpl in H. congruence.
    + unfold visible. apply Forall_rev. assumption.
  - destruct (isspace c) eqn:Hc.
    + destruct cur eqn:E.
      * apply IH. constructor.
      * rewrite <- E in *. constructor; [|apply IH; constructor].
        split.
        -- intros H. apply (f_equal (@rev _)) in H. rewrite rev_involutive in H.
           simpl in H. congruence.
        -- unfold visible. apply Forall_rev. assumption.
    + apply IH. constructor; assumption.
Qed.

Lemma split_words (s : str) : Forall is_word (split s).
Proof. apply split_from_words. constructor. Qed.

Lemma slice_sublist {A} (P : A -> Prop) (l : list A) (i j : Z) :
  Forall P l -> Forall P (slice l i j).
Proof.
  intros H. unfold slice. apply Forall_take, Forall_drop, H.
Qed.

(** A slice with bounds inside the list. *)
Lemma slice_inside {A} (l : list A) (i j : Z) :
  0 <= i -> 0 <= j ->
  slice l i j = take (Z.to_nat (Z.min j (len l)) - Z.to_nat i) (drop (Z.to_nat i) l).
Proof.
  intros Hi Hj. unfold slice, clamp.
  destruct (Z.ltb_spec i 0); [lia|]. destruct (Z.ltb_spec j 0); [lia|].
  unfold len. destruct (Z.le_gt_cases i (Z.of_nat (length l))).
  - rewrite (Z.min_l i) by lia. f_equal. lia.
  - rewrite (Z.min_r i) by lia. rewrite !drop_ge by lia. rewrite !take_nil. reflexivity.
Qed.

Lemma join_prefix (sep : str) (l1 l2 : list str) :
  len (join sep l1) <= len (join sep (l1 ++ l2)).
Proof.
  induction l1 as [|x xs IH].
  - simpl. apply len_nonneg.
  - destruct xs as [|y ys].
    + simpl. destruct l2; [simpl; lia|]. rewrite !len_app.
      pose proof (len_nonneg sep). pose proof (len_nonneg (join sep (s :: l2))). lia.
    + change (join sep ((x :: y :: ys) ++ l2)) with (x ++ sep ++ join sep ((y :: ys) ++ l2)).
      change (join sep (x :: y :: ys)) with (x ++ sep ++ join sep (y :: ys)).
      rewrite !len_app. lia.
Qed.

Lemma join_take_mono (sep : str) (l : list str) (a b : nat) :
  (a <= b)%nat -> len (join sep (take a l)) <= len (join sep (take b l)).
Proof.
  intros Hab. replace b with (a + (b - a))%nat by lia.
  rewrite <- take_take_drop. apply join_prefix.
Qed.

Lemma fixed_windows_lookup (words : list str) (chunk_size step s idx : Z)
    (i : nat) (c : Chunk) :
  fixed_windows words chunk_size step s idx !! i = Some c ->
  c = fixed_chunk words chunk_size (s + Z.of_nat i * step) (idx + Z.of_nat i).
Proof.
  unfold fixed_windows. intros H.
  apply list_lookup_fmap_Some in H as (j & -> & Hj).
  apply lookup_seq in Hj as [-> _]. reflexivity.
Qed.

Section FixedLoop.

Variable words : list str.
Variables chunk_size overlap : Z.
Let step := chunk_size - overlap.
Let n := len words.

Lemma window_count_done (s : Z) :
  0 < step -> n <= s -> Z.to_nat ((n - s + step - 1) / step) = 0%nat.
Proof.
  intros Hstep Hs.
  assert ((n - s + step - 1) / step < 1) by (apply Z.div_lt_upper_bound; lia).
  lia.
Qed.

Lemma window_count_next (s : Z) :
  0 < step -> s < n ->
  Z.to_nat ((n - s + step - 1) / step)
  = S (Z.to_nat ((n - (s + step) + step - 1) / step)).
Proof.
  intros Hstep Hs.
  replace (n - s + step - 1) with ((n - (s + step) + step - 1) + 1 * step) by lia.
  rewrite Z.div_add by lia.
  assert (0 <= (n - (s + step) + step - 1) / step) by (apply Z.div_pos; lia).
  lia.
Qed.

Lemma fixed_windows_done (s idx : Z) :
  0 < step -> n <= s -> fixed_windows words chunk_size step s idx = [].
Proof.
  intros Hstep Hs. unfold fixed_windows. fold n.
  rewrite window_count_done by assumption. reflexivity.
Qed.

Lemma fixed_windows_next (s idx : Z) :
  0 < step -> s < n ->
  fixed_windows words chunk_size step s idx
  = fixed_chunk words chunk_size s idx
    :: fixed_windows words chunk_size step (s + step) (idx + 1).
Proof.
  intros Hstep Hs. unfold fixed_windows. fold n.
  rewrite window_count_next by assumption.
  rewrite <- cons_seq, <- fmap_S_seq. rewrite fmap_cons. f_equal.
  - f_equal; lia.
  - rewrite <- list_fmap_compose. apply list_fmap_ext. intros _ j _. simpl.
    f_equal; lia.
Qed.

(** Whatever the fuel, a returned list is the closed form. *)
Lemma fixed_loop_result (fuel : nat) :
  0 < step ->
  forall s idx acc cs,
    fixed_loop fuel words chunk_size overlap s idx acc = Some cs ->
    cs = acc ++ fixed_windows words chunk_size step s idx.
Proof.
  intros Hstep. induction fuel as [|fuel IH]; intros s idx acc cs H; [discriminate|].
  simpl in H. fold n in H. destruct (Z.ltb_spec s n) as [Hlt|Hge].
  - apply IH in H. subst cs. fold step.
    rewrite (fixed_windows_next s) by assumption.
    rewrite <- app_assoc. reflexivity.
  - injection H as <-. rewrite fixed_windows_done by assumption.
    rewrite app_nil_r. reflexivity.
Qed.

(** With a positive step the loop returns as soon as the fuel exceeds
    the number of windows. *)
Lemma fixed_loop_run (fuel : nat) :
  0 < step ->
  forall s idx acc,
    (1 <= fuel)%nat -> n - s <= (Z.of_nat fuel - 1) * step ->
    fixed_loop fuel words chunk_size overlap s idx acc
    = Some (acc ++ fixed_windows words chunk_size step s idx).
Proof.
  intros Hstep. induction fuel as [|fuel IH]; intros s idx acc H1 Hf; [lia|].
  simpl. fold n. destruct (Z.ltb_spec s n) as [Hlt|Hge].
  - fold step. rewrite IH; [| nia | nia].
    rewrite (fixed_windows_next s) by assumption.
    rewrite <- app_assoc. reflexivity.
  - rewrite fixed_windows_done by assumption. rewrite app_nil_r. reflexivity.
Qed.

(** With a step that is not positive the loop condition never fails. *)
Lemma fixed_loop_diverges (fuel : nat) :
  step <= 0 ->
  forall s idx acc,
    s < n -> fixed_loop fuel words chunk_size overlap s idx acc = None.
Proof.
  intros Hstep. induction fuel as [|fuel IH]; intros s idx acc Hs; [reflexivity|].
  simpl. fold n. destruct (Z.ltb_spec s n); [|lia].
  apply IH. fold step. lia.
Qed.

Lemma fixed_windows_nonempty (s idx : Z) :
  0 < step -> s < n -> fixed_windows words chunk_size step s idx <> [].
Proof.
  intros Hstep Hs. rewrite fixed_windows_next by assumption. discriminate.
Qed.

End FixedLoop.

(** ** Fixed-size chunking: results *)

Lemma fixed_chunking_closed_form (self : ChunkingService) (t : str) (fuel : nat) :
  default_overlap self < default_chunk_size self ->
  split t <> [] ->
  (length (split t) < fuel)%nat ->
  fixed_chunking fuel self t
  = Some (fixed_windows (split t) (default_chunk_size self)
            (default_chunk_size self - default_overlap self) 0 0).
Proof.
  intros Hcfg Hw Hfuel. unfold fixed_chunking.
  destruct (split t) as [|w ws] eqn:E; [congruence|]. simpl negb. cbv iota.
  rewrite fixed_loop_run; [reflexivity | lia | lia |].
  unfold len in *. simpl length in *. nia.
Qed.

Lemma fixed_chunking_returned (self : ChunkingService) (t : str) (fuel : nat)
    (cs : list Chunk) :
  fixed_chunking fuel self t = Some cs ->
  cs = [] \/
  (default_overlap self < default_chunk_size self /\
   cs = fixed_windows (split t) (default_chunk_size self)
          (default_chunk_size self - default_overlap self) 0 0).
Proof.
  unfold fixed_chunking. intros H.
  destruct (split t) as [|w ws] eqn:E; simpl in H.
  - left. congruence.
  - right. destruct (Z_lt_le_dec (default_overlap self) (default_chunk_size self)) as [Hlt|Hge].
    + split; [assumption|]. apply fixed_loop_result in H; [|lia]. exact H.
    + rewrite fixed_loop_diverges in H; [discriminate | lia |].
      unfold len. simpl. lia.
Qed.

(** First half of the termination requirement: with [overlap < size]
    the loop returns, for every text, once the fuel exceeds the number
    of words. *)
Lemma fixed_chunking_terminates (self : ChunkingService) (t : str) :
  default_overlap self < default_chunk_size self ->
  exists cs, forall fuel,
    (length (split t) < fuel)%nat -> fixed_chunking fuel self t = Some cs.
Proof.
  intros Hcfg. destruct (split t) as [|w ws] eqn:E.
  - exists []. intros fuel _. unfold fixed_chunking. rewrite E. reflexivity.
  - eexists. intros fuel Hfuel. rewrite <- E in Hfuel.
    apply fixed_chunking_closed_form; [assumption | congruence | assumption].
Qed.

(** Without the guard a configuration with [overlap >= size] never
    leaves the loop on a text that has a word. *)
Lemma fixed_chunking_diverges (self : ChunkingService) (t : str) (fuel : nat) :
  default_chunk_size self <= default_overlap self ->
  split t <> [] ->
  fixed_chunking fuel self t = None.
Proof.
  intros Hcfg Hw. unfold fixed_chunking.
  destruct (split t) as [|w ws] eqn:E; [congruence|]. simpl negb. cbv iota.
  apply fixed_loop_diverges; [lia|]. unfold len. simpl. lia.
Qed.

Lemma fixed_chunk_words (words : list str) (chunk_size s idx : Z) :
  Forall is_word words ->
  split (text (fixed_chunk words chunk_size s idx))
  = slice words s (Z.min (s + chunk_size) (len words)).
Proof.
  intros Hw. unfold fixed_chunk. simpl.
  apply split_join_words, slice_sublist, Hw.
Qed.

Lemma fixed_windows_index (words : list str) (chunk_size step : Z) :
  let cs := fixed_windows words chunk_size step 0 0 in
  index <$> cs = Z.of_nat <$> seq 0 (length cs).
Proof.
  intros cs. unfold cs, fixed_windows.
  rewrite length_fmap, length_seq, <- list_fmap_compose.
  apply list_fmap_ext. intros _ j _. reflexivity.
Qed.

(** A full window and the next one: the last [overlap] words of the
    first are the first [overlap] words of the second. *)
Lemma slices_share (A : Type) (l : list A) (size overlap a : Z) :
  0 <= overlap < size -> 0 <= a -> a + size <= len l ->
  let step := size - overlap in
  drop (Z.to_nat step) (slice l a (Z.min (a + size) (len l)))
  = take (Z.to_nat overlap)
      (slice l (a + step) (Z.min (a + step + size) (len l)))
  /\ len (take (Z.to_nat overlap)
            (slice l (a + step) (Z.min (a + step + size) (len l)))) = overlap.
Proof.
  intros Hcfg Ha Hfull step. unfold len in *.
  rewrite !slice_inside by lia. unfold len.
  rewrite take_take.
  match goal with
  | |- context [take ?k (drop (Z.to_nat a) l)] =>
      replace k with (Z.to_nat step + Z.to_nat overlap)%nat by lia
  end.
  rewrite <- take_drop_commute, drop_drop.
  replace (Z.to_nat (a + step)) with (Z.to_nat a + Z.to_nat step)%nat by lia.
  match goal with
  | |- context [take (Z.to_nat overlap `min` ?k)%nat _] =>
      replace (Z.to_nat overlap `min` k)%nat with (Z.to_nat overlap) by lia
  end.
  split; [reflexivity|].
  rewrite length_take, length_drop. lia.
Qed.

(** C2, at the failing input: with [default_chunk_size = 10] and
    [default_overlap = 10] the call [fixed_chunking("a")] is not rejected
    as a configuration error: the window start stays at 0 and the loop
    does not return, whatever the fuel. *)
Theorem fixed_chunking_overlap_equal_size_hangs :
  forall fuel, fixed_chunking fuel (mkChunkingService 10 10) (lit "a") = None.
Proof.
  intros fuel. apply fixed_chunking_diverges; [simpl; lia|].
  vm_compute. discriminate.
Qed.

(** C4 (as stated), refuted: the text [" "] is not empty, the
    configuration has [overlap < size], and no chunk is produced. *)
Lemma fixed_chunking_blank_text_no_chunk :
  lit " " <> [] /\ 2 < 10 /\
  forall fuel, fixed_chunking fuel (mkChunkingService 10 2) (lit " ") = Some [].
Proof.
  split; [vm_compute; discriminate|]. split; [lia|]. intros fuel. reflexivity.
Qed.

(** C4 (amended): for every text with at least one word and every
    configuration with [overlap < size], [fixed_chunking] returns a list
    that is not empty, whose indices are 0, 1, ..., n-1, whose i-th chunk
    is made of the words [i*step : min(i*step + size, len)] for
    [step = size - overlap]; when [0 <= overlap] and the i-th window is
    full, the last [overlap] words of chunk i are the first [overlap]
    words of chunk i+1; and twenty words with size 10 and overlap 2 give
    three chunks, of the words [0:10], [8:18] and [16:20]. *)
Theorem fixed_chunking_windows (self : ChunkingService) (t : str) :
  let size := default_chunk_size self in
  let overlap := default_overlap self in
  let step := size - overlap in
  let words := split t in
  overlap < size ->
  words <> [] ->
  exists cs : list Chunk,
    (forall fuel, (length words < fuel)%nat ->
       fixed_chunking fuel self t = Some cs)
    /\ cs <> []
    /\ List.map index cs = List.map Z.of_nat (seq 0 (length cs))
    /\ (forall (i : nat) c, cs !! i = Some c ->
          split (text c)
          = slice words (Z.of_nat i * step)
              (Z.min (Z.of_nat i * step + size) (len words)))
    /\ (0 <= overlap ->
        forall (i : nat) c c',
          cs !! i = Some c -> cs !! S i = Some c' ->
          Z.of_nat i * step + size <= len words ->
          drop (Z.to_nat step) (split (text c))
          = take (Z.to_nat overlap) (split (text c'))
          /\ len (take (Z.to_nat overlap) (split (text c'))) = overlap)
    /\ (let words20 := split twenty_words in
        option_map (List.map text)
          (fixed_chunking 21 (mkChunkingService 10 2) twenty_words)
        = Some [join [SP] (slice words20 0 10);
                join [SP] (slice words20 8 18);
                join [SP] (slice words20 16 20)]).
Proof.
  intros size overlap step words Hcfg Hw.
  exists (fixed_windows words size step 0 0).
  assert (Hwords : Forall is_word words) by apply split_words.
  assert (Hlook : forall (i : nat) c,
             fixed_windows words size step 0 0 !! i = Some c ->
             split (text c)
             = slice words (Z.of_nat i * step)
                 (Z.min (Z.of_nat i * step + size) (len words))).
  { intros i c Hc. apply fixed_windows_lookup in Hc. subst c.
    rewrite fixed_chunk_words by assumption. reflexivity. }
  split; [|split; [|split; [|split; [|split]]]].
  - intros fuel Hfuel. apply fixed_chunking_closed_form; assumption.
  - apply fixed_windows_nonempty; [unfold step; lia|].
    destruct words; [congruence|]. unfold len. simpl. lia.
  - apply (fixed_windows_index words size step).
  - exact Hlook.
  - intros Hov i c c' Hc Hc' Hfull.
    rewrite (Hlook _ _ Hc), (Hlook _ _ Hc').
    replace (Z.of_nat (S i) * step) with (Z.of_nat i * step + step) by lia.
    apply slices_share; [lia | unfold step; nia | assumption].
  - vm_compute. reflexivity.
Qed.

(** The twenty-word scenario: three chunks. *)
Lemma fixed_chunking_windows_witness :
  exists cs,
    (forall fuel, (length (split twenty_words) < fuel)%nat ->
       fixed_chunking fuel (mkChunkingService 10 2) twenty_words = Some cs)
    /\ length cs = 3%nat.
Proof.
  destruct (fixed_chunking_windows (mkChunkingService 10 2) twenty_words)
    as (cs & Hrun & _ & _ & _ & _ & _).
  - simpl. lia.
  - vm_compute. discriminate.
  - exists cs. split; [exact Hrun|].
    specialize (Hrun 21%nat). 
    assert (H : fixed_chunking 21 (mkChunkingService 10 2) twenty_words = Some cs).
    { apply Hrun. vm_compute. lia. }
    vm_compute in H. injection H as <-. reflexivity.
Defined.

(** ** Dynamic chunking: invariants of the two loops *)

Lemma fold_left_inv {A B} (f : A -> B -> A) (P : A -> Prop) (Q : B -> Prop)
    (l : list B) (a : A) :
  P a -> Forall Q l -> (forall a b, P a -> Q b -> P (f a b)) ->
  P (fold_left f l a).
Proof.
  intros Ha Hl Hstep. revert a Ha.
  induction Hl as [|b l Hb _ IH]; intros a Ha; simpl; [assumption|].
  apply IH, Hstep; assumption.
Qed.

Lemma len_concat {A} (ls : list (list A)) :
  len (concat ls) = fold_right Z.add 0 (List.map len ls).
Proof.
  induction ls as [|x xs IH]; [reflexivity|].
  simpl. rewrite len_app, IH. reflexivity.
Qed.

Lemma join_word_count (l : list str) :
  len (split (join [SP] l)) = total_words l.
Proof.
  rewrite split_join, len_concat, List.map_map. reflexivity.
Qed.

Lemma total_words_app (l1 l2 : list str) :
  total_words (l1 ++ l2) = total_words l1 + total_words l2.
Proof.
  unfold total_words. rewrite List.map_app, fold_right_app.
  induction (List.map (fun s => len (split s)) l1) as [|x xs IH]; simpl; lia.
Qed.

Lemma join_nonempty (sep : str) (l : list str) :
  l <> [] -> Forall (fun s => s <> []) l -> join sep l <> [].
Proof.
  intros Hl H. destruct l as [|x xs]; [congruence|].
  apply Forall_cons in H as [Hx _].
  destruct xs; simpl; [assumption|].
  destruct x; [exfalso; apply Hx; reflexivity | discriminate].
Qed.

Lemma strip_nil : strip [] = [].
Proof. reflexivity. Qed.

Lemma strip_nonblank_nonempty (pieces : list str) (s : str) :
  In s (strip_nonblank pieces) -> s <> [].
Proof.
  unfold strip_nonblank. rewrite in_map_iff. intros (p & <- & Hp).
  apply filter_In in Hp as [_ Hp]. apply truthy_true in Hp. exact Hp.
Qed.

Lemma _split_sentences_nonempty (tok : Tokenizer) (t s : str) :
  In s (_split_sentences tok t) -> s <> [].
Proof.
  unfold _split_sentences. destruct (tok t); apply strip_nonblank_nonempty.
Qed.

Lemma emit_offsets (a : Acc) (c : Chunk) :
  offsets_ok (acc_chunks a) ->
  (forall c', c' ∈ acc_chunks a -> start_char c' <= current_position a) ->
  start_char c = current_position a ->
  end_char c = start_char c + len (text c) ->
  offsets_ok (acc_chunks (emit a c))
  /\ (forall c', c' ∈ acc_chunks (emit a c) ->
        start_char c' <= current_position (emit a c)).
Proof.
  intros [Hend Hsorted] Hpos Hs He. simpl.
  pose proof (len_nonneg (text c)) as Hlen.
  split; [split|].
  - intros c' Hc'. apply elem_of_app in Hc' as [Hc'|Hc'].
    + apply Hend, Hc'.
    + apply list_elem_of_singleton in Hc'. subst c'. exact He.
  - intros i j c1 c2 Hij H1 H2.
    destruct (Nat.lt_ge_cases j (length (acc_chunks a))) as [Hj|Hj].
    + rewrite lookup_app_l in H1, H2 by lia. exact (Hsorted i j _ _ Hij H1 H2).
    + rewrite (lookup_app_r _ _ j) in H2 by assumption.
      apply list_lookup_singleton_Some in H2 as [_ <-].
      destruct (Nat.lt_ge_cases i (length (acc_chunks a))) as [Hi|Hi].
      * rewrite lookup_app_l in H1 by assumption.
        rewrite Hs. apply Hpos. eapply list_elem_of_lookup_2, H1.
      * rewrite lookup_app_r in H1 by assumption.
        apply list_lookup_singleton_Some in H1 as [_ <-]. lia.
  - intros c' Hc'. apply elem_of_app in Hc' as [Hc'|Hc'].
    + specialize (Hpos _ Hc'). lia.
    + apply list_elem_of_singleton in Hc'. subst c'. lia.
Qed.

Lemma emit_multi_offsets (a : Acc) (cur : list str) (size : Z) :
  acc_offsets_ok a -> acc_offsets_ok (emit a (multi_sentence_chunk a cur size)).
Proof. intros [H1 H2]. apply emit_offsets; auto. Qed.

Lemma emit_paragraph_offsets (a : Acc) (para : str) :
  acc_offsets_ok a -> acc_offsets_ok (emit a (paragraph_chunk a para)).
Proof. intros [H1 H2]. apply emit_offsets; auto. Qed.

Lemma sentence_step_offsets (chunk_size : Z) (st : SentState) (s : str) :
  acc_offsets_ok (fst (fst st)) ->
  acc_offsets_ok (fst (fst (sentence_step chunk_size st s))).
Proof.
  destruct st as [[a cur] csize]. unfold sentence_step. simpl.
  intros H. destruct (_ && _); simpl; [apply emit_multi_offsets|]; assumption.
Qed.

Lemma paragraph_step_offsets (tok : Tokenizer) (chunk_size : Z) (a : Acc)
    (para : str) :
  acc_offsets_ok a -> acc_offsets_ok (paragraph_step tok chunk_size a para).
Proof.
  intros Ha. unfold paragraph_step.
  destruct (negb _); [assumption|].
  destruct (_ >? _); [|apply emit_paragraph_offsets; assumption].
  pose proof (fold_left_inv (sentence_step chunk_size)
                (fun st => acc_offsets_ok (fst (fst st))) (fun _ => True)
                (_split_sentences tok para) (a, [], 0)) as Hfold.
  destruct (fold_left _ _ _) as [[a' cur] csize]. simpl in Hfold.
  assert (Ha' : acc_offsets_ok a').
  { apply Hfold; [assumption | apply Forall_forall; auto |].
    intros st s Hst _. apply sentence_step_offsets, Hst. }
  destruct (truthy cur); [apply emit_multi_offsets|]; assumption.
Qed.

Lemma dynamic_chunking_offsets (tok : Tokenizer) (self : ChunkingService)
    (t : str) :
  offsets_ok (dynamic_chunking tok self t).
Proof.
  unfold dynamic_chunking.
  apply (fold_left_inv _ acc_offsets_ok (fun _ => True)).
  - split; [split|]; simpl.
    + intros c Hc. apply elem_of_nil in Hc. contradiction.
    + intros i j c c' _ Hc. rewrite lookup_nil in Hc. discriminate.
    + intros c Hc. apply elem_of_nil in Hc. contradiction.
  - apply Forall_forall. auto.
  - intros a p Ha _. apply paragraph_step_offsets, Ha.
Qed.

(** ** Dynamic chunking: the soft cap *)

Section SoftCap.

Variable sent : str -> Prop.
Variable chunk_size : Z.

Let capped := soft_capped sent chunk_size.

Lemma emit_capped (a : Acc) (c : Chunk) :
  Forall capped (acc_chunks a) -> capped c ->
  Forall capped (acc_chunks (emit a c)).
Proof.
  intros Ha Hc. simpl. apply Forall_app. split; [assumption|].
  constructor; [assumption|constructor].
Qed.

Lemma multi_sentence_capped (a : Acc) (cur : list str) (csize : Z) :
  cur <> [] ->
  Forall (fun s => sent s /\ s <> []) cur ->
  csize = total_words cur ->
  (csize <= chunk_size \/ exists s, cur = [s]) ->
  capped (multi_sentence_chunk a cur csize).
Proof.
  intros Hne Hcur Hsize Hcap. split; simpl.
  - apply join_nonempty; [assumption|].
    eapply Forall_impl; [exact Hcur|]. intros s [_ Hs]. exact Hs.
  - rewrite join_word_count, <- Hsize. intros Hbig.
    destruct Hcap as [Hle|[s ->]]; [lia|].
    apply Forall_cons in Hcur as [[Hs _] _]. simpl. split; [exact Hs|].
    right. right. left. reflexivity.
Qed.

Lemma sentence_step_inv (st : SentState) (s : str) :
  sent_inv sent chunk_size st -> sent s /\ s <> [] ->
  sent_inv sent chunk_size (sentence_step chunk_size st s).
Proof.
  destruct st as [[a cur] csize]. intros (Ha & Hsize & Hcur & Hcap) Hs.
  unfold sentence_step.
  destruct (Z.gtb_spec (csize + len (split s)) chunk_size) as [Hbig|Hfit];
    simpl andb.
  - destruct cur as [|s0 cur'] eqn:E; simpl truthy; cbv iota.
    + simpl. repeat split; try assumption.
      * unfold total_words in *. simpl in *. lia.
      * constructor; [assumption|constructor].
      * right. right. eexists. reflexivity.
    + rewrite <- E in *. simpl. repeat split.
      * apply emit_capped; [assumption|].
        apply multi_sentence_capped; try assumption; [congruence|].
        destruct Hcap as [Hc|Hc]; [congruence|exact Hc].
      * unfold total_words. simpl. lia.
      * constructor; [assumption|constructor].
      * right. right. eexists. reflexivity.
  - simpl. repeat split; try assumption.
    + rewrite total_words_app, Hsize. unfold total_words. simpl. lia.
    + apply Forall_app. split; [assumption|]. constructor; [assumption|constructor].
    + right. left. lia.
Qed.

Lemma paragraph_step_capped (tok : Tokenizer) (a : Acc) (para : str) :
  (forall s, In s (_split_sentences tok para) -> sent s) ->
  Forall capped (acc_chunks a) ->
  Forall capped (acc_chunks (paragraph_step tok chunk_size a para)).
Proof.
  intros Hsent Ha. unfold paragraph_step.
  destruct (truthy (strip para)) eqn:Hstrip; simpl negb; cbv iota; [|assumption].
  destruct (Z.gtb_spec (len (split para)) chunk_size) as [Hbig|Hfit].
  - pose proof (fold_left_inv (sentence_step chunk_size)
                  (sent_inv sent chunk_size)
                  (fun s => sent s /\ s <> [])
                  (_split_sentences tok para) (a, [], 0)) as Hfold.
    destruct (fold_left _ _ _) as [[a' cur] csize].
    destruct Hfold as (Ha' & Hsize & Hcur & Hcap).
    + repeat split; [assumption | constructor | left; reflexivity].
    + apply Forall_forall. intros s Hs. apply list_elem_of_In in Hs.
      split; [apply Hsent, Hs|]. eapply _split_sentences_nonempty, Hs.
    + intros st s. apply sentence_step_inv.
    + destruct cur as [|s0 cur'] eqn:E; simpl truthy; cbv iota; [assumption|].
      rewrite <- E in *. apply emit_capped; [assumption|].
      apply multi_sentence_capped; try assumption; [congruence|].
      destruct Hcap as [Hc|Hc]; [congruence|exact Hc].
  - apply emit_capped; [assumption|]. split; simpl.
    + intros ->. discriminate.
    + intros Hbig. lia.
Qed.

End SoftCap.

Lemma fixed_windows_offsets (words : list str) (chunk_size step : Z) :
  0 < step -> offsets_ok (fixed_windows words chunk_size step 0 0).
Proof.
  intros Hstep. split.
  - intros c Hc. apply list_elem_of_lookup in Hc as [i Hc].
    apply fixed_windows_lookup in Hc. subst c. reflexivity.
  - intros i j c c' Hij Hc Hc'.
    apply fixed_windows_lookup in Hc, Hc'. subst c c'.
    unfold fixed_chunk. simpl.
    rewrite !slice_inside by nia. rewrite !drop_0.
    apply join_take_mono. nia.
Qed.

(** C10: every chunk of [fixed_chunking] and of [dynamic_chunking] has
    [end_char = start_char + len(text)], and along one returned sequence
    the values of [start_char] do not decrease; [fixed_chunking] returns
    such a sequence whenever [overlap < size], and [dynamic_chunking]
    always does. *)
Theorem chunk_offsets_consistent (tok : Tokenizer) (self : ChunkingService)
    (t : str) :
  (forall fuel cs, fixed_chunking fuel self t = Some cs -> offsets_ok cs)
  /\ (default_overlap self < default_chunk_size self ->
      exists cs,
        (forall fuel, (length (split t) < fuel)%nat ->
           fixed_chunking fuel self t = Some cs)
        /\ offsets_ok cs)
  /\ offsets_ok (dynamic_chunking tok self t).
Proof.
  assert (Hfixed : forall fuel cs,
             fixed_chunking fuel self t = Some cs -> offsets_ok cs).
  { intros fuel cs H. apply fixed_chunking_returned in H as [->|[Hcfg ->]].
    - split.
      + intros c Hc. apply elem_of_nil in Hc. contradiction.
      + intros i j c c' _ Hc. rewrite lookup_nil in Hc. discriminate.
    - apply fixed_windows_offsets. lia. }
  split; [exact Hfixed|]. split; [|apply dynamic_chunking_offsets].
  intros Hcfg. destruct (fixed_chunking_terminates self t Hcfg) as [cs Hcs].
  exists cs. split; [exact Hcs|].
  apply (Hfixed (S (length (split t)))). apply Hcs. lia.
Qed.

(** The twenty-word text with size 10 and overlap 2 (fixed), and with
    the regex fallback (dynamic). *)
Lemma chunk_offsets_consistent_witness :
  (exists cs,
     fixed_chunking 21 (mkChunkingService 10 2) twenty_words = Some cs
     /\ offsets_ok cs)
  /\ offsets_ok
       (dynamic_chunking (fun _ => None) (mkChunkingService 10 2) twenty_words).
Proof.
  destruct (chunk_offsets_consistent (fun _ => None) (mkChunkingService 10 2)
              twenty_words) as (Hfixed & Hruns & Hdynamic).
  split; [|exact Hdynamic].
  destruct Hruns as (cs & Hcs & Hok); [simpl; lia|].
  exists cs. split; [|exact Hok]. apply Hcs. vm_compute. lia.
Defined.

(** C5: no chunk of [dynamic_chunking] has an empty text, and a chunk
    with more words than [default_chunk_size] is a single sentence of a
    paragraph of the text, itself longer than the size (its metadata
    counts one sentence). *)
Theorem dynamic_chunking_soft_cap (tok : Tokenizer) (self : ChunkingService)
    (t : str) (c : Chunk) :
  c ∈ dynamic_chunking tok self t ->
  text c <> []
  /\ (default_chunk_size self < len (split (text c)) ->
      exists para s,
        In para (_split_paragraphs t)
        /\ In s (_split_sentences tok para)
        /\ text c = s
        /\ default_chunk_size self < len (split s)
        /\ In ("sentence_count"%string, MInt 1) (metadata c)).
Proof.
  set (sent := fun s : str =>
                 exists para, In para (_split_paragraphs t)
                              /\ In s (_split_sentences tok para)).
  assert (Hall : Forall (soft_capped sent (default_chunk_size self))
                   (dynamic_chunking tok self t)).
  { unfold dynamic_chunking.
    apply (fold_left_inv _
             (fun a => Forall (soft_capped sent (default_chunk_size self))
                         (acc_chunks a))
             (fun para => In para (_split_paragraphs t))).
    - constructor.
    - apply Forall_forall. intros p Hp. apply list_elem_of_In, Hp.
    - intros a para Ha Hpara. apply paragraph_step_capped; [|assumption].
      intros s Hs. exists para. split; assumption. }
  intros Hc. rewrite Forall_forall in Hall. destruct (Hall c Hc) as [Hne Hcap].
  split; [exact Hne|]. intros Hbig.
  destruct (Hcap Hbig) as [(para & Hpara & Hs) Hmeta].
  exists para, (text c). repeat split; assumption.
Qed.

(** With size 3 the second sentence of [long_paragraph] is a chunk of
    its own, of four words. *)
Lemma dynamic_chunking_soft_cap_witness :
  exists c,
    c ∈ dynamic_chunking (fun _ => None) (mkChunkingService 3 0) long_paragraph
    /\ text c = lit "four five six seven"
    /\ In ("sentence_count"%string, MInt 1) (metadata c).
Proof.
  set (c := mkChunk (lit "four five six seven") 1 14 33
              [("strategy", MStr "dynamic"); ("type", MStr "multi-sentence");
               ("sentence_count", MInt 1); ("word_count", MInt 4)]%string).
  assert (Hc : c ∈ dynamic_chunking (fun _ => None) (mkChunkingService 3 0)
                     long_paragraph).
  { vm_compute. right. left. }
  exists c. split; [exact Hc|]. split; [reflexivity|].
  destruct (dynamic_chunking_soft_cap _ _ _ _ Hc) as [_ Hcap].
  destruct Hcap as (para & s & _ & _ & _ & _ & Hmeta).
  - vm_compute. reflexivity.
  - exact Hmeta.
Defined.

(** ** Complexity: the specification as written, and bounds *)












(** ** Texts without any sentence have no structure *)





Lemma lstrip_Forall (P : char -> Prop) (s : str) :
  Forall P s -> Forall P (lstrip s).
Proof.
  induction 1 as [|c s Hc Hs IH]; simpl; [constructor|].
  destruct (isspace c); [exact IH|constructor; assumption].
Qed.

Lemma strip_Forall (P : char -> Prop) (s : str) :
  Forall P s -> Forall P (strip s).
Proof.
  intros H. unfold strip, rstrip.
  apply lstrip_Forall, Forall_rev, lstrip_Forall, Forall_rev, H.
Qed.

Lemma lstrip_nil (s : str) :
  lstrip s = [] <-> Forall (fun c => isspace c = true) s.
Proof.
  induction s as [|c s IH]; simpl.
  - split; [constructor|reflexivity].
  - destruct (isspace c) eqn:E.
    + rewrite IH. split; [intros H; constructor; assumption|].
      intros H. apply Forall_cons in H as [_ H]. exact H.
    + split; [discriminate|]. intros H. apply Forall_cons in H as [H _]. congruence.
Qed.

Lemma rev_nil_inv {A} (l : list A) : rev l = [] -> l = [].
Proof.
  intros H. apply (f_equal (@rev A)) in H. rewrite rev_involutive in H. exact H.
Qed.

Lemma Forall_rev_inv {A} (P : A -> Prop) (l : list A) :
  Forall P (rev l) -> Forall P l.
Proof. intros H. rewrite <- (rev_involutive l). apply Forall_rev, H. Qed.

Lemma strip_blank (s : str) :
  strip s = [] <-> Forall (fun c => isspace c = true) s.
Proof.
  unfold strip, rstrip. rewrite lstrip_nil. split.
  - intros H. apply Forall_rev_inv in H. 
    assert (Hall : forall x, Forall (fun c => isspace c = true) (lstrip x) ->
                             Forall (fun c => isspace c = true) x).
    { induction x as [|c x IHx]; simpl; [auto|].
      destruct (isspace c) eqn:E; [|auto]. intros Hx. constructor; auto. }
    apply Forall_rev_inv, Hall, H.
  - intros H. apply Forall_rev, lstrip_Forall, Forall_rev, H.
Qed.















(** ** Retrieval: closed forms *)

Section Loops.

Variable w : World.
Variable db : Database.
Hypothesis Hdb : database w = Some db.

Lemma get_document_run (document_id : str) (st : St) :
  get_document w document_id st
  = (Returned (document_of db document_id),
     log_event (EvGetDocument document_id) st).
Proof. unfold get_document, call. rewrite Hdb. reflexivity. Qed.

Lemma build_results_run (ds : list Q) (l : list Chunk.t) :
  forall (k : nat) (acc : list Result.t) (st : St),
    for_each (build_result w ds) (imap (fun i x => (k + i, x)%nat) l) acc st
    = (Returned (acc ++ imap (fun i c => result_of db ds (k + i) c) l),
       mkSt (ticks st)
         (trace st ++ List.map (fun c => EvGetDocument (Chunk.document_id c)) l)).
Proof.
  induction l as [|c l IH]; intros k acc st.
  - simpl. unfold ret. rewrite !app_nil_r. destruct st; reflexivity.
  - rewrite !imap_cons. simpl for_each. unfold bind at 1.
    unfold build_result at 1. unfold bind at 1. rewrite get_document_run.
    unfold ret at 1.
    rewrite (imap_ext _ (fun i x => (S k + i, x)%nat) l)
      by (intros; simpl; f_equal; lia).
    rewrite IH. simpl. rewrite <- !app_assoc. simpl.
    do 4 f_equal. apply imap_ext. intros i x _. simpl. f_equal. lia.
Qed.

Lemma keep_language_run (lf : str) (l : list Result.t) :
  forall (acc : list Result.t) (st : St),
    for_each (keep_language w lf) l acc st
    = (Returned (acc ++ List.filter (language_matches db lf) l),
       mkSt (ticks st)
         (trace st ++ List.map (fun r => EvGetDocument (Result.document_id r)) l)).
Proof.
  induction l as [|r l IH]; intros acc st.
  - simpl. unfold ret. rewrite !app_nil_r. destruct st; reflexivity.
  - simpl for_each. unfold bind at 1. unfold keep_language at 1.
    unfold bind at 1. rewrite get_document_run.
    simpl List.filter. unfold language_matches at 1.
    destruct (document_of db (Result.document_id r)) as [d|].
    + destruct (bool_decide (Document.language d = lf)); unfold ret at 1;
        rewrite IH; simpl; rewrite <- !app_assoc; reflexivity.
    + unfold ret at 1. rewrite IH. simpl. rewrite <- !app_assoc. reflexivity.
Qed.

End Loops.

Section SemanticSearch.

Variable w : World.
Variables (query : str) (top_k : Z) (document_id : option str).
Variable st : St.

#[local] Arguments first_or_empty : simpl never.

Ltac run_search :=
  unfold semantic_search, store_answer, bind, time, call, search_similar_chunks,
    get_chunk_details, after_query, log_event in *;
  fold (where_clause document_id) in *; simpl in *.

Lemma semantic_search_no_ids (vr : QueryResult) :
  store_answer w query top_k document_id = Some vr ->
  first_or_empty (ids vr) = [] ->
  semantic_search w query top_k document_id st
  = (Returned (empty_response w query st),
     mkSt (S (S (ticks st))) (trace (after_query query top_k document_id st))).
Proof.
  intros H Hids. run_search.
  destruct (generate_embedding w query) as [e|]; simpl in *; [|discriminate].
  rewrite H. unfold call. simpl. rewrite Hids. simpl.
  unfold ret, empty_response. simpl.
  rewrite <- app_assoc. reflexivity.
Qed.

Lemma semantic_search_found (vr : QueryResult) (db : Database) :
  store_answer w query top_k document_id = Some vr ->
  first_or_empty (ids vr) <> [] ->
  database w = Some db ->
  semantic_search w query top_k document_id st
  = (Returned (found_response w db query vr st),
     mkSt (S (S (ticks st)))
       (trace (after_query query top_k document_id st)
        ++ EvChunkDetails (first_or_empty (ids vr))
        :: List.map (fun c => EvGetDocument (Chunk.document_id c))
             (chunk_details db (first_or_empty (ids vr))))).
Proof.
  intros H Hids Hdb. run_search.
  destruct (generate_embedding w query) as [e|]; simpl in *; [|discriminate].
  rewrite H. unfold call. simpl.
  destruct (first_or_empty (ids vr)) as [|i0 is0] eqn:E; [congruence|].
  simpl. rewrite Hdb. simpl.
  pose proof (build_results_run w db Hdb (returned_distances vr)
                (chunk_details db (i0 :: is0)) 0 []) as Hrun.
  unfold enumerate, returned_distances, chunk_details in *. simpl in Hrun.
  rewrite Hrun. simpl. unfold ret, found_response, returned_distances, chunk_details.
  rewrite E. simpl. rewrite <- !app_assoc. reflexivity.
Qed.

Lemma semantic_search_returned (resp : Response.t) (st' : St) :
  semantic_search w query top_k document_id st = (Returned resp, st') ->
  exists vr,
    store_answer w query top_k document_id = Some vr
    /\ ((first_or_empty (ids vr) = []
         /\ resp = empty_response w query st
         /\ trace st' = trace (after_query query top_k document_id st))
        \/ (exists db,
              database w = Some db
              /\ first_or_empty (ids vr) <> []
              /\ resp = found_response w db query vr st
              /\ trace st'
                 = trace (after_query query top_k document_id st)
                   ++ EvChunkDetails (first_or_empty (ids vr))
                   :: List.map (fun c => EvGetDocument (Chunk.document_id c))
                        (chunk_details db (first_or_empty (ids vr))))).
Proof.
  intros H.
  destruct (store_answer w query top_k document_id) as [vr|] eqn:Hvr.
  - exists vr. split; [reflexivity|].
    destruct (first_or_empty (ids vr)) as [|i0 is0] eqn:E.
    + left. rewrite (semantic_search_no_ids vr Hvr E) in H.
      injection H as <- <-. auto.
    + destruct (database w) as [db|] eqn:Hdb.
      * right. exists db.
        rewrite (semantic_search_found vr db Hvr) in H by congruence.
        injection H as <- <-. rewrite E. repeat split; congruence.
      * exfalso. run_search.
        destruct (generate_embedding w query) as [e|]; simpl in *; [|discriminate].
        rewrite Hvr in H. unfold call in H. simpl in H. rewrite E in H.
        simpl in H. rewrite Hdb in H. simpl in H. discriminate.
  - exfalso. run_search.
    destruct (generate_embedding w query) as [e|]; simpl in *; [|discriminate].
    rewrite Hvr in H. discriminate.
Qed.

End SemanticSearch.

(** ** Rounding *)




(** ** Retrieval: results *)

Lemma hybrid_search_unfold (w : World) (query : str) (top_k : Z)
    (filters : option (gmap string str)) (st : St) :
  hybrid_search w query top_k filters st
  = match semantic_search w query top_k (filter_document_id filters) st with
    | (Returned rs, st1) =>
        match filter_language filters with
        | Some lf =>
            match for_each (keep_language w lf) (Response.results rs) [] st1 with
            | (Returned filtered, st2) =>
                (Returned (Response.mk (Response.query rs) filtered
                             (len filtered) (Response.processing_time rs)), st2)
            | (Raised e, st2) => (Raised e, st2)
            end
        | None => (Returned rs, st1)
        end
    | (Raised e, st1) => (Raised e, st1)
    end.
Proof.
  unfold hybrid_search, bind.
  destruct (semantic_search _ _ _ _ _) as [[rs|e] st1]; [|reflexivity].
  destruct filters as [d|]; simpl; [|reflexivity].
  destruct (bool_decide (d = ∅)); [reflexivity|].
  destruct (d !! "language"%string); reflexivity.
Qed.

Lemma vector_queries_app (l1 l2 : list Event) :
  vector_queries (l1 ++ l2) = vector_queries l1 ++ vector_queries l2.
Proof. apply List.filter_app. Qed.

Lemma vector_queries_documents {A} (f : A -> str) (l : list A) :
  vector_queries (List.map (fun x => EvGetDocument (f x)) l) = [].
Proof. induction l as [|x l IH]; [reflexivity|exact IH]. Qed.

Lemma semantic_search_one_query (w : World) (query : str) (top_k : Z)
    (document_id : option str) (st st' : St) (resp : Response.t) :
  semantic_search w query top_k document_id st = (Returned resp, st') ->
  vector_queries (trace st')
  = vector_queries (trace st)
    ++ [EvVectorQuery top_k (where_clause document_id)].
Proof.
  intros H. apply semantic_search_returned in H as (vr & _ & H).
  assert (Hq : vector_queries (trace (after_query query top_k document_id st))
               = vector_queries (trace st)
                 ++ [EvVectorQuery top_k (where_clause document_id)]).
  { unfold after_query. simpl. rewrite vector_queries_app. reflexivity. }
  destruct H as [(_ & _ & ->)|(db & _ & _ & _ & ->)]; [exact Hq|].
  rewrite vector_queries_app, Hq.
  change (vector_queries (?e :: ?l)) with (vector_queries l).
  rewrite vector_queries_documents, app_nil_r. reflexivity.
Qed.

Lemma semantic_search_total (w : World) (query : str) (top_k : Z)
    (document_id : option str) (st st' : St) (resp : Response.t) :
  semantic_search w query top_k document_id st = (Returned resp, st') ->
  Response.total_results resp = len (Response.results resp)
  /\ (Response.results resp <> [] -> exists db, database w = Some db).
Proof.
  intros H. apply semantic_search_returned in H as (vr & _ & H).
  destruct H as [(_ & -> & _)|(db & Hdb & _ & -> & _)].
  - split; [reflexivity|]. intros Hne. exfalso. apply Hne. reflexivity.
  - split; [reflexivity|]. intros _. exists db. exact Hdb.
Qed.

Lemma filter_length_le' {A} (f : A -> bool) (l : list A) :
  (length (List.filter f l) <= length l)%nat.
Proof. induction l as [|x l IH]; simpl; [lia|]. destruct (f x); simpl; lia. Qed.

Lemma filter_none {A} (f : A -> bool) (l : list A) :
  (forall x, In x l -> f x = false) -> List.filter f l = [].
Proof.
  induction l as [|x l IH]; intros H; [reflexivity|].
  simpl. rewrite (H x) by (left; reflexivity).
  apply IH. intros y Hy. apply H. right. exact Hy.
Qed.

(** *** Example stores *)

(** C1, at the failing input: the store returns the ids [b; a] with the
    distances [0.1; 0.9], the chunk table holds a before b, and the
    results come out as [a; b]: the first result is not the first
    returned id, and chunk a carries the score 0.9 of b's distance. *)
Theorem semantic_search_returns_table_order :
  exists resp st',
    semantic_search ranked_b_first (lit "q") 2 None st0 = (Returned resp, st')
    /\ List.map Result.chunk_id (Response.results resp) = [lit "a"; lit "b"]
    /\ List.map Result.similarity_score (Response.results resp)
       = [round (1 - (1 # 10)) 4; round (1 - (9 # 10)) 4]
    /\ option_map (fun vr => first_or_empty (ids vr))
         (store_answer ranked_b_first (lit "q") 2 None)
       = Some [lit "b"; lit "a"].
Proof.
  eexists _, _. split; [vm_compute; reflexivity|].
  repeat split; vm_compute; reflexivity.
Qed.

(** C3, at the failing input: with no stored chunk the response has the
    query, no result and [total_results = 0], and no exception is
    raised, but [processing_time] is the raw difference 0.0012345 of the
    two clock readings, not its rounding 0.001 to 3 decimals. *)
Theorem semantic_search_empty_time_not_rounded :
  exists resp st',
    semantic_search nothing_stored (lit "q") 5 None st0 = (Returned resp, st')
    /\ Response.query resp = lit "q"
    /\ Response.results resp = []
    /\ Response.total_results resp = 0
    /\ (Response.processing_time resp == 12345 # 10000000)%Q
    /\ (round (12345 # 10000000) 3 == 1 # 1000)%Q
    /\ ~ (Response.processing_time resp
          == round (Response.processing_time resp) 3)%Q.
Proof.
  eexists _, _. split; [vm_compute; reflexivity|].
  repeat split; try (vm_compute; reflexivity).
  vm_compute. discriminate.
Qed.



(** C8: when the semantic search of [hybrid_search] (same query and
    [top_k], document id taken from the filters) returns, so does
    [hybrid_search]; it has at most as many results, [total_results] is
    their number, the vector store is queried once for [top_k] results
    and not again after filtering, and a language filter that matches
    none of the hits gives no result and [total_results = 0]; when the
    semantic search raises, [hybrid_search] raises the same error. *)
Theorem hybrid_search_filters_after_retrieval (w : World) (query : str)
    (top_k : Z) (filters : option (gmap string str)) (st : St) :
  match semantic_search w query top_k (filter_document_id filters) st with
  | (Returned rs, st1) =>
      exists rh st2,
        hybrid_search w query top_k filters st = (Returned rh, st2)
        /\ (length (Response.results rh) <= length (Response.results rs))%nat
        /\ Response.total_results rh = len (Response.results rh)
        /\ vector_queries (trace st2) = vector_queries (trace st1)
        /\ vector_queries (trace st1)
           = vector_queries (trace st)
             ++ [EvVectorQuery top_k
                   (where_clause (filter_document_id filters))]
        /\ (forall lf,
              filter_language filters = Some lf ->
              (forall db r, database w = Some db ->
                            In r (Response.results rs) ->
                            language_matches db lf r = false) ->
              Response.results rh = [] /\ Response.total_results rh = 0)
  | (Raised e, st1) => hybrid_search w query top_k filters st = (Raised e, st1)
  end.
Proof.
  rewrite hybrid_search_unfold.
  destruct (semantic_search _ _ _ _ _) as [[rs|e] st1] eqn:Hsem; [|reflexivity].
  pose proof (semantic_search_one_query _ _ _ _ _ _ _ Hsem) as Hone.
  pose proof (semantic_search_total _ _ _ _ _ _ _ Hsem) as [Htotal Hdb].
  destruct (filter_language filters) as [lf|] eqn:Hlf.
  - destruct (database w) as [db|] eqn:Hw.
    + rewrite (keep_language_run w db Hw). rewrite app_nil_l.
      eexists _, _. split; [reflexivity|].
      cbn [Response.results Response.total_results trace].
      split; [apply filter_length_le'|]. split; [reflexivity|].
      split; [rewrite vector_queries_app, vector_queries_documents;
              apply app_nil_r|].
      split; [exact Hone|].
      intros lf' [= <-] Hnone. rewrite filter_none; [split; reflexivity|].
      intros r Hr. apply (Hnone db r eq_refl Hr).
    + assert (Hres : Response.results rs = []).
      { destruct (Response.results rs); [reflexivity|].
        destruct Hdb as [db Hdb]; [discriminate|congruence]. }
      rewrite Hres. simpl. eexists _, _. split; [reflexivity|]. simpl.
      repeat split; auto.
  - eexists _, _. split; [reflexivity|]. split; [lia|].
    split; [exact Htotal|]. split; [reflexivity|]. split; [exact Hone|].
    intros lf [=].
Qed.

(** An Arabic filter over the English document: no result, one vector
    query. *)
Lemma hybrid_search_filters_after_retrieval_witness :
  exists rh st2,
    hybrid_search ranked_a_first (lit "q") 2 (Some language_arabic) st0
    = (Returned rh, st2)
    /\ Response.results rh = []
    /\ Response.total_results rh = 0
    /\ vector_queries (trace st2) = [EvVectorQuery 2 None].
Proof.
  pose proof (hybrid_search_filters_after_retrieval ranked_a_first (lit "q") 2
                (Some language_arabic) st0) as H.
  destruct (semantic_search ranked_a_first (lit "q") 2
              (filter_document_id (Some language_arabic)) st0)
    as [[rs|e] st1] eqn:Hsem; [|vm_compute in Hsem; discriminate].
  destruct H as (rh & st2 & Hrun & _ & _ & Hsame & Hone & Hnone).
  exists rh, st2. split; [exact Hrun|].
  vm_compute in Hsem. injection Hsem as <- <-.
  destruct (Hnone (lit "arabic")) as [Hres Htot].
  - vm_compute. reflexivity.
  - intros db r [= <-] Hr. simpl in Hr.
    destruct Hr as [<-|[<-|[]]]; vm_compute; reflexivity.
  - split; [exact Hres|]. split; [exact Htot|].
    rewrite Hsame, Hone. reflexivity.
Defined.

(** ** Fixed-size chunking: count, coverage, sizes, offsets *)

Lemma ceil_div_covers (n step : Z) :
  0 <= n -> 0 < step -> n <= (n + step - 1) / step * step.
Proof.
  intros Hn Hstep.
  pose proof (Z.div_mod (n + step - 1) step) as Hdm.
  pose proof (Z.mod_pos_bound (n + step - 1) step Hstep) as Hmod. nia.
Qed.

Lemma ceil_div_last (n step : Z) (j : nat) :
  0 < step -> (j < Z.to_nat ((n + step - 1) / step))%nat ->
  Z.of_nat j * step < n.
Proof.
  intros Hstep Hj.
  pose proof (Z.div_mod (n + step - 1) step) as Hdm.
  pose proof (Z.mod_pos_bound (n + step - 1) step Hstep) as Hmod. nia.
Qed.

Lemma fixed_windows_length (words : list str) (chunk_size step : Z) :
  0 < step ->
  len (fixed_windows words chunk_size step 0 0) = (len words + step - 1) / step.
Proof.
  intros Hstep. unfold fixed_windows, len at 1.
  rewrite length_fmap, length_seq, Z.sub_0_r.
  apply Z2Nat.id. apply Z.div_pos; [|lia]. pose proof (len_nonneg words). lia.
Qed.

Lemma fixed_windows_member (words : list str) (chunk_size step : Z) (c : Chunk) :
  0 < step ->
  c ∈ fixed_windows words chunk_size step 0 0 ->
  exists j : nat,
    c = fixed_chunk words chunk_size (Z.of_nat j * step) (Z.of_nat j)
    /\ Z.of_nat j * step < len words.
Proof.
  intros Hstep Hc. unfold fixed_windows in Hc.
  apply list_elem_of_fmap in Hc as (j & -> & Hj).
  apply elem_of_seq in Hj. exists j. split; [f_equal; lia|].
  rewrite Z.sub_0_r in Hj. apply ceil_div_last; [assumption|lia].
Qed.

(** X1: with [overlap < size], [fixed_chunking] returns, for every fuel
    above the number of words, a list whose length is the number of
    words divided by [step = size - overlap], rounded up. *)
Theorem fixed_chunking_count (self : ChunkingService) (t : str) :
  let step := default_chunk_size self - default_overlap self in
  default_overlap self < default_chunk_size self ->
  exists cs : list Chunk,
    (forall fuel, (length (split t) < fuel)%nat ->
       fixed_chunking fuel self t = Some cs)
    /\ len cs = (len (split t) + step - 1) / step.
Proof.
  intros step Hcfg. destruct (split t) as [|w ws] eqn:E.
  - exists []. split.
    + intros fuel _. unfold fixed_chunking. rewrite E. reflexivity.
    + unfold len. simpl. symmetry. apply Z.div_small. unfold step. lia.
  - exists (fixed_windows (w :: ws) (default_chunk_size self) step 0 0). split.
    + intros fuel Hfuel. rewrite <- E in *.
      apply fixed_chunking_closed_form; [assumption|congruence|assumption].
    + apply fixed_windows_length. unfold step. lia.
Qed.

Lemma take_take_enough {A} (l : list A) (a b : nat) :
  (a <= b)%nat \/ (length l <= b)%nat -> take a (take b l) = take a l.
Proof.
  intros [H|H].
  - rewrite take_take. f_equal. lia.
  - rewrite (take_ge l b) by assumption. reflexivity.
Qed.

Lemma concat_blocks {A} (l : list A) (s k : nat) :
  concat ((fun j : nat => take s (drop (j * s) l)) <$> seq 0 k) = take (k * s) l.
Proof.
  induction k as [|k IH]; [reflexivity|].
  rewrite seq_S, fmap_app, concat_app, IH. simpl.
  rewrite app_nil_r, take_take_drop. f_equal. lia.
Qed.

(** X2: with [0 <= overlap < size] no word is lost: the first [step]
    words of each chunk, concatenated in the order of the chunks, are
    the words of the text. *)
Theorem fixed_chunking_covers_words (self : ChunkingService) (t : str) :
  let step := default_chunk_size self - default_overlap self in
  0 <= default_overlap self < default_chunk_size self ->
  exists cs : list Chunk,
    (forall fuel, (length (split t) < fuel)%nat ->
       fixed_chunking fuel self t = Some cs)
    /\ concat (List.map (fun c => take (Z.to_nat step) (split (text c))) cs)
       = split t.
Proof.
  intros step Hcfg. destruct (split t) as [|w ws] eqn:E.
  - exists []. split; [|reflexivity].
    intros fuel _. unfold fixed_chunking. rewrite E. reflexivity.
  - rewrite <- E. set (words := split t) in *.
    exists (fixed_windows words (default_chunk_size self) step 0 0). split.
    + intros fuel Hfuel.
      apply fixed_chunking_closed_form; [lia| |assumption].
      fold words. rewrite E. discriminate.
    + assert (Hstep : 0 < step) by (unfold step; lia).
      unfold fixed_windows.
      change (List.map ?f ?l) with (f <$> l). rewrite <- list_fmap_compose.
      rewrite Z.sub_0_r.
      erewrite list_fmap_ext; [rewrite (concat_blocks words (Z.to_nat step))|].
      * apply take_ge. pose proof (ceil_div_covers (len words) step) as Hc.
        unfold len in *. nia.
      * intros _ j _. unfold compose.
        rewrite fixed_chunk_words by apply split_words.
        assert (Hj : 0 <= Z.of_nat j * step) by nia.
        assert (Hjn : Z.to_nat (0 + Z.of_nat j * step) = (j * Z.to_nat step)%nat)
          by nia.
        pose proof (len_nonneg words) as Hlen.
        rewrite slice_inside by lia. rewrite Hjn.
        apply take_take_enough. rewrite length_drop. unfold len in *. lia.
Qed.

Lemma fixed_chunking_member (self : ChunkingService) (t : str) (fuel : nat)
    (cs : list Chunk) (c : Chunk) :
  fixed_chunking fuel self t = Some cs -> c ∈ cs ->
  let step := default_chunk_size self - default_overlap self in
  0 < step
  /\ exists j : nat,
       c = fixed_chunk (split t) (default_chunk_size self)
             (Z.of_nat j * step) (Z.of_nat j)
       /\ Z.of_nat j * step < len (split t).
Proof.
  intros H Hc step. apply fixed_chunking_returned in H as [->|[Hcfg ->]].
  - apply elem_of_nil in Hc. contradiction.
  - assert (Hstep : 0 < step) by (unfold step; lia).
    split; [exact Hstep|]. apply fixed_windows_member; assumption.
Qed.

(** X3: with [0 < size], every chunk [fixed_chunking] returns has
    between 1 and [size] words and a text that is not empty, and its
    metadata carry the strategy ['fixed'] and the [word_count] and
    [char_count] of its own text. *)
Theorem fixed_chunk_sizes (self : ChunkingService) (t : str) (fuel : nat)
    (cs : list Chunk) (c : Chunk) :
  0 < default_chunk_size self ->
  fixed_chunking fuel self t = Some cs ->
  c ∈ cs ->
  1 <= len (split (text c)) <= default_chunk_size self
  /\ text c <> []
  /\ dict_get "strategy" (metadata c) = Some (MStr "fixed")
  /\ dict_get "word_count" (metadata c) = Some (MInt (len (split (text c))))
  /\ dict_get "char_count" (metadata c) = Some (MInt (len (text c))).
Proof.
  intros Hsize H Hc.
  destruct (fixed_chunking_member _ _ _ _ _ H Hc) as (Hstep & j & -> & Hj).
  set (step := default_chunk_size self - default_overlap self) in *.
  assert (Hw : split (text (fixed_chunk (split t) (default_chunk_size self)
                              (Z.of_nat j * step) (Z.of_nat j)))
               = slice (split t) (Z.of_nat j * step)
                   (Z.min (Z.of_nat j * step + default_chunk_size self)
                      (len (split t))))
    by (apply fixed_chunk_words, split_words).
  assert (Hj0 : 0 <= Z.of_nat j * step) by nia.
  assert (Hlen : 1 <= len (split (text (fixed_chunk (split t)
                                          (default_chunk_size self)
                                          (Z.of_nat j * step) (Z.of_nat j))))
                 <= default_chunk_size self).
  { rewrite Hw. rewrite slice_inside by lia. unfold len in *.
    rewrite length_take, length_drop. lia. }
  split; [exact Hlen|]. split.
  - intros Hnil. rewrite Hnil in Hlen. unfold len in Hlen. simpl in Hlen. lia.
  - split; [reflexivity|]. split; [|reflexivity].
    rewrite Hw. reflexivity.
Qed.

Lemma fixed_chunk_sizes_witness :
  Forall (fun c => 1 <= len (split (text c)) <= 10)
    (fixed_windows (split twenty_words) 10 8 0 0).
Proof.
  apply Forall_forall. intros c Hc.
  apply (fixed_chunk_sizes (mkChunkingService 10 2) twenty_words 21
           (fixed_windows (split twenty_words) 10 8 0 0) c).
  - simpl. lia.
  - vm_compute. reflexivity.
  - exact Hc.
Defined.

Lemma fixed_chunking_count_witness :
  exists cs : list Chunk,
    fixed_chunking 21 (mkChunkingService 10 2) twenty_words = Some cs
    /\ len cs = 3.
Proof.
  destruct (fixed_chunking_count (mkChunkingService 10 2) twenty_words)
    as (cs & Hrun & Hlen); [simpl; lia|].
  exists cs. split; [apply Hrun; vm_compute; lia|].
  rewrite Hlen. vm_compute. reflexivity.
Defined.

Lemma fixed_chunking_covers_words_witness :
  exists cs : list Chunk,
    fixed_chunking 21 (mkChunkingService 10 2) twenty_words = Some cs
    /\ concat (List.map (fun c => take 8 (split (text c))) cs)
       = split twenty_words.
Proof.
  destruct (fixed_chunking_covers_words (mkChunkingService 10 2) twenty_words)
    as (cs & Hrun & Hcover); [simpl; lia|].
  exists cs. split; [apply Hrun; vm_compute; lia|]. exact Hcover.
Defined.

Lemma join_app (sep : str) (l1 l2 : list str) :
  l1 <> [] -> l2 <> [] ->
  join sep (l1 ++ l2) = join sep l1 ++ sep ++ join sep l2.
Proof.
  intros H1 H2. induction l1 as [|x xs IH]; [congruence|].
  destruct xs as [|y ys].
  - simpl. destruct l2; [congruence|reflexivity].
  - change (join sep ((x :: y :: ys) ++ l2))
      with (x ++ sep ++ join sep ((y :: ys) ++ l2)).
    rewrite IH by discriminate.
    change (join sep (x :: y :: ys)) with (x ++ sep ++ join sep (y :: ys)).
    rewrite <- !app_assoc. reflexivity.
Qed.

Lemma slice_middle {A} (a b c : list A) :
  slice (a ++ b ++ c) (len a) (len a + len b) = b.
Proof.
  pose proof (len_nonneg a). pose proof (len_nonneg b).
  rewrite slice_inside by lia. unfold len. rewrite !length_app.
  replace (Z.to_nat (Z.of_nat (length a))) with (length a) by lia.
  rewrite drop_app_length.
  replace (Z.to_nat _ - length a)%nat with (length b) by lia.
  apply take_app_length.
Qed.

Lemma fixed_chunk_located (words : list str) (chunk_size s idx : Z) :
  0 < chunk_size -> 0 <= s < len words ->
  let c := fixed_chunk words chunk_size s idx in
  let shift := if s =? 0 then 0 else 1 in
  slice (join [SP] words) (start_char c + shift) (end_char c + shift) = text c.
Proof.
  intros Hsize Hs c shift. unfold c, fixed_chunk. simpl.
  pose proof (len_nonneg words) as Hn.
  rewrite !(slice_inside words) by lia. rewrite drop_0.
  set (sn := Z.to_nat s).
  set (m := (Z.to_nat (Z.min (Z.min (s + chunk_size) (len words)) (len words))
             - sn)%nat).
  replace (Z.to_nat (Z.min s (len words)) - Z.to_nat 0)%nat with sn
    by (unfold sn; lia).
  set (pre := take sn words). set (cw := take m (drop sn words)).
  set (rest := drop m (drop sn words)).
  assert (Hwords : words = pre ++ cw ++ rest).
  { unfold pre, cw, rest. rewrite take_drop, take_drop. reflexivity. }
  assert (Hcw : cw <> []).
  { intros E. apply (f_equal (@length _)) in E. unfold cw in E.
    rewrite length_take, length_drop in E. unfold len in *. simpl in E.
    unfold m, sn in E. lia. }
  assert (Htail : exists tail, join [SP] (cw ++ rest) = join [SP] cw ++ tail).
  { destruct rest as [|r rs] eqn:E.
    - exists []. rewrite !app_nil_r. reflexivity.
    - eexists. apply join_app; [assumption|discriminate]. }
  destruct Htail as [tail Htail].
  rewrite Hwords at 1. unfold shift.
  destruct (Z.eqb_spec s 0) as [E0|E0].
  - assert (Hpre : pre = []) by (unfold pre, sn; rewrite E0; reflexivity).
    rewrite Hpre. simpl app. rewrite Htail.
    change (len (join [SP] [])) with 0. rewrite !Z.add_0_r.
    apply (slice_middle [] (join [SP] cw) tail).
  - assert (Hpre : pre <> []).
    { intros E. apply (f_equal (@length _)) in E. unfold pre in E.
      rewrite length_take in E. unfold len in *. simpl in E. unfold sn in E. lia. }
    rewrite join_app; [|assumption|destruct cw; [congruence|discriminate]].
    rewrite Htail.
    replace (join [SP] pre ++ [SP] ++ join [SP] cw ++ tail)
      with ((join [SP] pre ++ [SP]) ++ join [SP] cw ++ tail)
      by (rewrite <- app_assoc; reflexivity).
    replace (len (join [SP] pre) + 1) with (len (join [SP] pre ++ [SP]))
      by (rewrite len_app; reflexivity).
    replace (len (join [SP] pre) + len (join [SP] cw) + 1)
      with (len (join [SP] pre ++ [SP]) + len (join [SP] cw))
      by (rewrite len_app; unfold len; simpl; lia).
    apply slice_middle.
Qed.

(** X4: on a text whose words are separated by single spaces, without
    whitespace in front or behind, the text of chunk 0 is
    [text[start_char:end_char]] and the text of every later chunk is
    [text[start_char + 1 : end_char + 1]]: from the second chunk on the
    offsets of [fixed_chunking] point one character before the chunk. *)
Theorem fixed_offsets_one_short (self : ChunkingService) (t : str)
    (fuel : nat) (cs : list Chunk) (i : nat) (c : Chunk) :
  t = join [SP] (split t) ->
  0 < default_chunk_size self ->
  fixed_chunking fuel self t = Some cs ->
  cs !! i = Some c ->
  let shift := match i with O => 0 | S _ => 1 end in
  slice t (start_char c + shift) (end_char c + shift) = text c.
Proof.
  intros Hnorm Hsize H Hi shift.
  apply fixed_chunking_returned in H as [->|[Hcfg ->]];
    [rewrite lookup_nil in Hi; discriminate|].
  set (step := default_chunk_size self - default_overlap self) in *.
  assert (Hstep : 0 < step) by (unfold step; lia).
  pose proof (lookup_lt_Some _ _ _ Hi) as Hlt.
  unfold fixed_windows in Hlt.
  rewrite length_fmap, length_seq, Z.sub_0_r in Hlt.
  apply (ceil_div_last _ _ _ Hstep) in Hlt.
  apply fixed_windows_lookup in Hi. subst c. rewrite !Z.add_0_l.
  transitivity
    (slice (join [SP] (split t))
       (start_char (fixed_chunk (split t) (default_chunk_size self)
                      (Z.of_nat i * step) (Z.of_nat i)) + shift)
       (end_char (fixed_chunk (split t) (default_chunk_size self)
                    (Z.of_nat i * step) (Z.of_nat i)) + shift));
    [f_equal; exact Hnorm|].
  replace shift with (if Z.of_nat i * step =? 0 then 0 else 1).
  - apply fixed_chunk_located; [assumption|nia].
  - unfold shift. destruct i; [reflexivity|].
    destruct (Z.eqb_spec (Z.of_nat (S i) * step) 0); [nia|reflexivity].
Qed.

Lemma fixed_offsets_one_short_witness :
  exists c,
    fixed_windows (split (lit "a b c d e")) 3 2 0 0 !! 1%nat = Some c
    /\ slice (lit "a b c d e") (start_char c + 1) (end_char c + 1) = text c.
Proof.
  destruct (fixed_windows (split (lit "a b c d e")) 3 2 0 0 !! 1%nat)
    as [c|] eqn:Hc; [|vm_compute in Hc; discriminate Hc].
  exists c. split; [reflexivity|].
  apply (fixed_offsets_one_short (mkChunkingService 3 1) (lit "a b c d e") 6
           (fixed_windows (split (lit "a b c d e")) 3 2 0 0) 1 c).
  - vm_compute. reflexivity.
  - simpl. lia.
  - vm_compute. reflexivity.
  - exact Hc.
Defined.

(** ** Stripping *)

Lemma lstrip_no_lead (s : str) : no_lead (lstrip s).
Proof.
  induction s as [|c s IH]; simpl; [exact I|].
  destruct (isspace c) eqn:E; [exact IH|exact E].
Qed.

Lemma lstrip_id (s : str) : no_lead s -> lstrip s = s.
Proof. destruct s as [|c s]; simpl; [reflexivity|]. intros ->. reflexivity. Qed.

Lemma rstrip_no_trail (s : str) : no_lead (rev (rstrip s)).
Proof. unfold rstrip. rewrite rev_involutive. apply lstrip_no_lead. Qed.

Lemma rstrip_id (s : str) : no_lead (rev s) -> rstrip s = s.
Proof. intros H. unfold rstrip. rewrite lstrip_id by assumption. apply rev_involutive. Qed.

Lemma lstrip_keeps_no_trail (s : str) :
  no_lead (rev s) -> no_lead (rev (lstrip s)).
Proof.
  induction s as [|c s IH]; simpl; [auto|].
  destruct (isspace c) eqn:E; [|auto].
  intros H. apply IH. destruct (rev s) as [|d r] eqn:Er; [exact I|].
  simpl in H. exact H.
Qed.

Lemma strip_strip (s : str) : strip (strip s) = strip s.
Proof.
  unfold strip at 1.
  rewrite rstrip_id.
  - apply lstrip_id. unfold strip. apply lstrip_no_lead.
  - unfold strip. apply lstrip_keeps_no_trail, rstrip_no_trail.
Qed.

Lemma strip_nonblank_stripped (pieces : list str) (p : str) :
  In p (strip_nonblank pieces) -> strip p = p /\ p <> [].
Proof.
  unfold strip_nonblank. rewrite in_map_iff. intros (q & <- & Hq).
  apply filter_In in Hq as [_ Hq]. split; [apply strip_strip|].
  apply truthy_true, Hq.
Qed.

Lemma re_split_punct_pieces (s : str) :
  forall in_run cur,
    Forall (fun c => is_terminator c = false) cur ->
    Forall (Forall (fun c => is_terminator c = false))
      (re_split_punct in_run cur s).
Proof.
  induction s as [|c s IH]; intros in_run cur Hcur; simpl.
  - constructor; [apply Forall_rev, Hcur|constructor].
  - destruct (is_terminator c) eqn:E.
    + destruct in_run; [apply IH, Hcur|].
      constructor; [apply Forall_rev, Hcur|]. apply IH. constructor.
    + apply IH. constructor; assumption.
Qed.

(** X5: every paragraph of [_split_paragraphs] and every sentence of
    [_split_sentences] is stripped and not empty, so that the guard
    [if not para.strip(): continue] of [dynamic_chunking] never skips a
    paragraph; when the tokenizer raises, no sentence of the fallback
    contains one of [.], [!], [?]. *)
Theorem pieces_are_stripped (tok : Tokenizer) (t : str) :
  (forall p, In p (_split_paragraphs t) ->
             strip p = p /\ p <> [] /\ truthy (strip p) = true)
  /\ (forall s, In s (_split_sentences tok t) -> strip s = s /\ s <> [])
  /\ (tok t = None ->
      forall s, In s (_split_sentences tok t) ->
                Forall (fun c => is_terminator c = false) s).
Proof.
  split; [|split].
  - intros p Hp. apply strip_nonblank_stripped in Hp as [H1 H2].
    split; [exact H1|]. split; [exact H2|]. rewrite H1. apply truthy_true, H2.
  - intros s Hs. unfold _split_sentences in Hs.
    destruct (tok t); apply strip_nonblank_stripped in Hs; exact Hs.
  - intros Htok s Hs. unfold _split_sentences in Hs. rewrite Htok in Hs.
    unfold strip_nonblank in Hs. apply in_map_iff in Hs as (q & <- & Hq).
    apply filter_In in Hq as [Hq _]. apply strip_Forall.
    pose proof (re_split_punct_pieces t false [] (Forall_nil_2 _)) as Hall.
    rewrite Forall_forall in Hall. apply Hall, list_elem_of_In, Hq.
Qed.

Lemma pieces_are_stripped_witness :
  Forall (Forall (fun c => is_terminator c = false))
    (_split_sentences (fun _ => None) long_paragraph).
Proof.
  destruct (pieces_are_stripped (fun _ => None) long_paragraph) as (_ & _ & H).
  apply Forall_forall. intros s Hs.
  apply H; [reflexivity|]. apply list_elem_of_In, Hs.
Defined.

(** ** Dynamic chunking: layout, metadata, small paragraphs *)

Lemma span_app (cs : list Chunk) (c : Chunk) :
  span (cs ++ [c]) = span cs + (len (text c) + 1).
Proof. induction cs as [|x cs IH]; simpl; lia. Qed.

Lemma emit_laid_out (a : Acc) (c : Chunk) :
  acc_laid_out a ->
  index c = chunk_index a -> start_char c = current_position a ->
  dynamic_metadata_ok c ->
  acc_laid_out (emit a c).
Proof.
  intros (Hlay & Hidx & Hpos & Hmeta) Hi Hs Hc. unfold acc_laid_out. simpl.
  split; [|split; [|split]].
  - intros i x Hx.
    destruct (Nat.lt_ge_cases i (length (acc_chunks a))) as [Hlt|Hge].
    + rewrite lookup_app_l in Hx by assumption.
      rewrite take_app_le by lia. apply Hlay, Hx.
    + rewrite lookup_app_r in Hx by assumption.
      apply list_lookup_singleton_Some in Hx as [Hi0 <-].
      assert (i = length (acc_chunks a)) as -> by lia.
      rewrite take_app_length. unfold len in *. split; congruence.
  - rewrite len_app, Hidx. reflexivity.
  - rewrite span_app, Hpos. reflexivity.
  - apply Forall_app. split; [assumption|]. constructor; [assumption|constructor].
Qed.

Lemma multi_sentence_metadata (a : Acc) (cur : list str) :
  cur <> [] ->
  dynamic_metadata_ok (multi_sentence_chunk a cur (total_words cur)).
Proof.
  intros Hcur. unfold dynamic_metadata_ok. simpl.
  split; [reflexivity|]. split; [rewrite join_word_count; reflexivity|].
  right. split; [reflexivity|]. exists (len cur). split; [|reflexivity].
  destruct cur; [congruence|]. unfold len. simpl. lia.
Qed.

Lemma sentence_step_laid_out (chunk_size : Z) (st : SentState) (s : str) :
  (acc_laid_out (fst (fst st)) /\ snd st = total_words (snd (fst st))) ->
  acc_laid_out (fst (fst (sentence_step chunk_size st s)))
  /\ snd (sentence_step chunk_size st s)
     = total_words (snd (fst (sentence_step chunk_size st s))).
Proof.
  destruct st as [[a cur] csize]. simpl. intros [Ha ->].
  unfold sentence_step.
  destruct ((total_words cur + len (split s) >? chunk_size) && truthy cur)
    eqn:E; simpl.
  - split.
    + apply emit_laid_out; try reflexivity; [assumption|].
      apply multi_sentence_metadata. apply andb_true_iff in E as [_ E].
      apply truthy_true, E.
    + unfold total_words. simpl. lia.
  - split; [assumption|]. rewrite total_words_app. unfold total_words. simpl. lia.
Qed.

Lemma paragraph_step_laid_out (tok : Tokenizer) (chunk_size : Z) (a : Acc)
    (para : str) :
  acc_laid_out a -> acc_laid_out (paragraph_step tok chunk_size a para).
Proof.
  intros Ha. unfold paragraph_step.
  destruct (negb _); [assumption|].
  destruct (_ >? _).
  - pose proof (fold_left_inv (sentence_step chunk_size)
                  (fun st => acc_laid_out (fst (fst st))
                             /\ snd st = total_words (snd (fst st)))
                  (fun _ => True) (_split_sentences tok para) (a, [], 0))
      as Hfold.
    destruct (fold_left _ _ _) as [[a' cur] csize]. simpl in Hfold.
    destruct Hfold as [Ha' ->].
    + split; [assumption|reflexivity].
    + apply Forall_forall. auto.
    + intros st s Hst _. apply sentence_step_laid_out, Hst.
    + destruct cur as [|s0 cur'] eqn:E; simpl truthy; cbv iota; [assumption|].
      rewrite <- E. apply emit_laid_out; try reflexivity; [assumption|].
      apply multi_sentence_metadata. congruence.
  - apply emit_laid_out; try reflexivity; [assumption|].
    unfold dynamic_metadata_ok. simpl. repeat split; auto.
Qed.

Lemma dynamic_chunking_acc (tok : Tokenizer) (self : ChunkingService) (t : str) :
  acc_laid_out
    (fold_left (paragraph_step tok (default_chunk_size self))
       (_split_paragraphs t) (mkAcc [] 0 0)).
Proof.
  apply (fold_left_inv _ acc_laid_out (fun _ => True)).
  - split; [|split; [|split]]; try reflexivity; [|constructor].
    intros i c Hc. simpl in Hc. rewrite lookup_nil in Hc. discriminate.
  - apply Forall_forall. auto.
  - intros a p Ha _. apply paragraph_step_laid_out, Ha.
Qed.

(** X6: the i-th chunk of [dynamic_chunking] has index i, and its
    [start_char] is the sum of [len(text) + 1] over the chunks before
    it. *)
Theorem dynamic_chunking_layout (tok : Tokenizer) (self : ChunkingService)
    (t : str) (i : nat) (c : Chunk) :
  dynamic_chunking tok self t !! i = Some c ->
  index c = Z.of_nat i
  /\ start_char c = span (take i (dynamic_chunking tok self t)).
Proof.
  intros Hc. destruct (dynamic_chunking_acc tok self t) as (Hlay & _).
  apply (Hlay i c Hc).
Qed.

Lemma dynamic_chunking_layout_witness :
  exists c,
    dynamic_chunking (fun _ => None) (mkChunkingService 3 0) long_paragraph
      !! 1%nat = Some c
    /\ index c = 1 /\ start_char c = 14.
Proof.
  destruct (dynamic_chunking (fun _ => None) (mkChunkingService 3 0)
              long_paragraph !! 1%nat) as [c|] eqn:Hc;
    [|vm_compute in Hc; discriminate Hc].
  exists c. split; [reflexivity|].
  destruct (dynamic_chunking_layout _ _ _ _ _ Hc) as (Hi & Hs).
  split; [exact Hi|]. rewrite Hs. vm_compute. reflexivity.
Defined.


(** X7: every chunk of [dynamic_chunking] carries the strategy
    ['dynamic'], a [word_count] equal to the number of words of its
    text, and either the type ['paragraph'] or the type
    ['multi-sentence'] with a [sentence_count] of at least 1. *)
Theorem dynamic_chunking_metadata (tok : Tokenizer) (self : ChunkingService)
    (t : str) (c : Chunk) :
  In c (dynamic_chunking tok self t) -> dynamic_metadata_ok c.
Proof.
  intros Hc. destruct (dynamic_chunking_acc tok self t) as (_ & _ & _ & Hmeta).
  rewrite Forall_forall in Hmeta. apply Hmeta, list_elem_of_In, Hc.
Qed.

Lemma dynamic_chunking_metadata_witness :
  Forall (fun c => dict_get "strategy" (metadata c) = Some (MStr "dynamic"))
    (dynamic_chunking (fun _ => None) (mkChunkingService 3 0) long_paragraph).
Proof.
  apply Forall_forall. intros c Hc.
  apply (dynamic_chunking_metadata _ _ _ _ (proj1 (list_elem_of_In _ _) Hc)).
Defined.

(** ** Dynamic chunking: paragraphs within the budget *)

Lemma re_split_blank_chars (P : char -> Prop) (s : str) :
  forall skip cur,
    Forall P cur -> Forall P s -> Forall (Forall P) (re_split_blank skip cur s).
Proof.
  induction s as [|c s IH]; intros skip cur Hcur Hs; simpl.
  - constructor; [apply Forall_rev, Hcur|constructor].
  - apply Forall_cons in Hs as [Hc Hs]. destruct skip as [|k].
    + destruct (c =? NL)%N.
      * destruct (blank_gap s).
        -- constructor; [apply Forall_rev, Hcur|]. apply IH; [constructor|assumption].
        -- apply IH; [constructor|]; assumption.
      * apply IH; [constructor|]; assumption.
    + apply IH; assumption.
Qed.

Lemma blank_text_no_paragraph (t : str) :
  Forall (fun c => isspace c = true) t -> _split_paragraphs t = [].
Proof.
  intros H. unfold _split_paragraphs, strip_nonblank.
  pose proof (re_split_blank_chars _ t 0 [] (Forall_nil_2 _) H) as Hall.
  induction Hall as [|p ps Hp _ IH]; [reflexivity|].
  simpl. apply strip_blank in Hp. rewrite Hp. simpl. exact IH.
Qed.

Lemma small_paragraphs_fold (tok : Tokenizer) (chunk_size : Z) (ps : list str) :
  forall a,
    Forall (fun p => truthy (strip p) = true /\ len (split p) <= chunk_size) ps ->
    let a' := fold_left (paragraph_step tok chunk_size) ps a in
    List.map text (acc_chunks a') = List.map text (acc_chunks a) ++ ps
    /\ (Forall (fun c => dict_get "type" (metadata c) = Some (MStr "paragraph"))
          (acc_chunks a) ->
        Forall (fun c => dict_get "type" (metadata c) = Some (MStr "paragraph"))
          (acc_chunks a')).
Proof.
  induction ps as [|p ps IH]; intros a Hps; simpl.
  - rewrite app_nil_r. auto.
  - apply Forall_cons in Hps as [[Hp Hlen] Hps].
    assert (Hstep : paragraph_step tok chunk_size a p
                    = emit a (paragraph_chunk a p)).
    { unfold paragraph_step. rewrite Hp. simpl.
      destruct (Z.gtb_spec (len (split p)) chunk_size); [lia|reflexivity]. }
    rewrite Hstep. destruct (IH (emit a (paragraph_chunk a p)) Hps) as [H1 H2].
    split.
    + rewrite H1. simpl. rewrite List.map_app. simpl.
      rewrite <- app_assoc. reflexivity.
    + intros Ha. apply H2. simpl. apply Forall_app. split; [assumption|].
      constructor; [reflexivity|constructor].
Qed.

(** X8: a text of whitespace only gives no chunk; when every paragraph
    has at most [default_chunk_size] words, the texts of the chunks of
    [dynamic_chunking] are the paragraphs, in order, and every chunk has
    the type ['paragraph']. *)
Theorem dynamic_chunking_small_paragraphs (tok : Tokenizer)
    (self : ChunkingService) (t : str) :
  (Forall (fun c => isspace c = true) t -> dynamic_chunking tok self t = [])
  /\ (Forall (fun p => len (split p) <= default_chunk_size self)
        (_split_paragraphs t) ->
      List.map text (dynamic_chunking tok self t) = _split_paragraphs t
      /\ Forall (fun c => dict_get "type" (metadata c) = Some (MStr "paragraph"))
           (dynamic_chunking tok self t)).
Proof.
  split.
  - intros H. unfold dynamic_chunking. rewrite blank_text_no_paragraph by assumption.
    reflexivity.
  - intros Hsmall. unfold dynamic_chunking.
    destruct (small_paragraphs_fold tok (default_chunk_size self)
                (_split_paragraphs t) (mkAcc [] 0 0)) as [H1 H2].
    + rewrite Forall_forall in *. intros p Hp. split; [|apply Hsmall, Hp].
      destruct (strip_nonblank_stripped _ _ (proj1 (list_elem_of_In _ _) Hp))
        as [H1 H2].
      rewrite H1. apply truthy_true, H2.
    + split; [exact H1|]. apply H2. constructor.
Qed.

Lemma dynamic_chunking_small_paragraphs_witness :
  List.map text
    (dynamic_chunking (fun _ => None) (mkChunkingService 512 50) two_paragraphs)
  = [lit "Para A."; lit "Para B."]
  /\ dynamic_chunking (fun _ => None) (mkChunkingService 512 50) (lit "  ") = [].
Proof.
  destruct (dynamic_chunking_small_paragraphs (fun _ => None)
              (mkChunkingService 512 50) two_paragraphs) as [_ Hsmall].
  destruct (dynamic_chunking_small_paragraphs (fun _ => None)
              (mkChunkingService 512 50) (lit "  ")) as [Hblank _].
  split.
  - destruct Hsmall as [Htexts _].
    + vm_compute. repeat constructor; discriminate.
    + rewrite Htexts. vm_compute. reflexivity.
  - apply Hblank. vm_compute. repeat constructor.
Defined.

(** ** Structure is detected line by line *)





(** ** The strategy dispatch *)





(** ** Language detection *)

(** X11: the language of a concatenation is determined by the languages
    of its two parts: ['unknown'] is neutral, two equal languages stay,
    and two different known languages give ['mixed']. *)
Theorem detect_language_concat (a b : str) :
  detect_language (a ++ b)
  = lang_join (detect_language a) (detect_language b).
Proof.
  unfold detect_language. rewrite !existsb_app.
  destruct (existsb is_arabic_char a), (existsb is_english_char a),
    (existsb is_arabic_char b), (existsb is_english_char b); reflexivity.
Qed.

Lemma diacritic_is_arabic (c : char) :
  is_diacritic c = true -> is_arabic_char c = true.
Proof.
  unfold is_diacritic, is_arabic_char, in_range.
  rewrite orb_true_iff, !andb_true_iff, !N.leb_le, N.eqb_eq. lia.
Qed.

(** X12: a text in which [validate_arabic_diacritics] finds a diacritic
    is detected as ['arabic'] or ['mixed'], never as ['english'] or
    ['unknown']. *)
Theorem diacritics_imply_arabic (t : str) :
  validate_arabic_diacritics t = true ->
  detect_language t = "arabic"%string \/ detect_language t = "mixed"%string.
Proof.
  unfold validate_arabic_diacritics, detect_language. intros H.
  assert (Ha : existsb is_arabic_char t = true).
  { apply existsb_exists in H as (c & Hc & Hd). apply existsb_exists.
    exists c. split; [assumption|]. apply diacritic_is_arabic, Hd. }
  rewrite Ha. destruct (existsb is_english_char t); auto.
Qed.

Lemma diacritics_imply_arabic_witness :
  detect_language [1605%N; 1614%N] = "arabic"%string
  \/ detect_language [1605%N; 1614%N] = "mixed"%string.
Proof. apply diacritics_imply_arabic. reflexivity. Defined.

(** ** File processing *)

Lemma split_on_from_length (sep : char) (s : str) (cur : str) :
  (1 <= length (split_on_from sep cur s))%nat.
Proof.
  revert cur. induction s as [|c s IH]; intros cur; simpl; [lia|].
  destruct (c =? sep)%N; [simpl; lia|apply IH].
Qed.

Lemma extract_pdf_stripped (f : File) (text : str) (n : Z) :
  extract_pdf f = inr (text, n) -> strip text = text /\ 0 <= n.
Proof.
  unfold extract_pdf. destruct (pypdf2_pages f) as [pages|]; [|discriminate].
  destruct (_ <? 100).
  - destruct (pdfplumber_pages f) as [pages'|]; [|discriminate].
    intros [= <- <-]. split; [apply strip_strip|apply len_nonneg].
  - intros [= <- <-]. split; [apply strip_strip|apply len_nonneg].
Qed.

Lemma extract_docx_stripped (f : File) (text : str) (n : Z) :
  extract_docx f = inr (text, n) -> strip text = text /\ 0 <= n.
Proof.
  unfold extract_docx. destruct (docx_document f) as [doc|]; [|discriminate].
  intros [= <- <-]. split; [apply strip_strip|apply len_nonneg].
Qed.

Lemma extract_txt_stripped (f : File) (text : str) (n : Z) :
  extract_txt f = inr (text, n) -> strip text = text /\ 1 <= n.
Proof.
  assert (Hfb : extract_txt_fallback f = inr (text, n) ->
                strip text = text /\ 1 <= n).
  { unfold extract_txt_fallback. destruct (read_text f _) as [raw|]; [|discriminate].
    intros [= <- <-]. split; [apply strip_strip|].
    unfold len, split_on. pose proof (split_on_from_length NL raw []). lia. }
  unfold extract_txt. destruct (chardet_encoding f) as [enc|]; [|exact Hfb].
  destruct (read_text f enc) as [raw|]; [|exact Hfb].
  intros [= <- <-]. split; [apply strip_strip|].
  unfold len, split_on. pose proof (split_on_from_length NL raw []). lia.
Qed.

Lemma supported_cases (e : str) :
  e ∈ supported_formats ->
  e = lit ".pdf" \/ e = lit ".docx" \/ e = lit ".doc" \/ e = lit ".txt".
Proof.
  unfold supported_formats. rewrite !elem_of_cons, elem_of_nil. tauto.
Qed.

(** X13: when [process_file] returns, the file exists and its
    lower-cased suffix is supported; [file_type] is one of [pdf],
    [docx], [doc], [txt]; the text is stripped; [character_count] and
    [word_count] are those of the text; [language] is the detected
    language of the text; [has_arabic_diacritics] holds only of an
    Arabic text with a diacritic; [page_count] is not negative, and at
    least 1 for a [.txt] file. *)
Theorem process_file_result (f : File) (md : Processed.t) :
  process_file f = inr md ->
  file_exists f = true
  /\ In (lower (file_suffix f)) supported_formats
  /\ In (Processed.file_type md) [lit "pdf"; lit "docx"; lit "doc"; lit "txt"]
  /\ strip (Processed.text md) = Processed.text md
  /\ Processed.character_count md = len (Processed.text md)
  /\ Processed.word_count md = len (split (Processed.text md))
  /\ Processed.language md = detect_language (Processed.text md)
  /\ (Processed.has_arabic_diacritics md = true ->
      Processed.language md = "arabic"%string
      /\ validate_arabic_diacritics (Processed.text md) = true)
  /\ 0 <= Processed.page_count md
  /\ (lower (file_suffix f) = lit ".txt" -> 1 <= Processed.page_count md).
Proof.
  unfold process_file. destruct (file_exists f); simpl; [|discriminate].
  destruct (bool_decide (lower (file_suffix f) ∈ supported_formats)) eqn:Hsup;
    simpl; [|discriminate].
  apply bool_decide_eq_true in Hsup.
  pose proof (proj1 (list_elem_of_In _ _) Hsup) as HsupIn.
  set (e := lower (file_suffix f)) in *.
  match goal with
  | |- match ?x with _ => _ end = _ -> _ => destruct x as [err|[text n]] eqn:Hext
  end; [discriminate|].
  intros [= <-]. simpl.
  assert (Hx : strip text = text /\ 0 <= n /\ (e = lit ".txt" -> 1 <= n)).
  { destruct (supported_cases e Hsup) as [E|[E|[E|E]]]; rewrite E in Hext;
      simpl in Hext.
    - apply extract_pdf_stripped in Hext as [H1 H2].
      repeat split; auto. rewrite E. discriminate.
    - apply extract_docx_stripped in Hext as [H1 H2].
      repeat split; auto. rewrite E. discriminate.
    - apply extract_docx_stripped in Hext as [H1 H2].
      repeat split; auto. rewrite E. discriminate.
    - apply extract_txt_stripped in Hext as [H1 H2].
      repeat split; auto; lia. }
  destruct Hx as (Hstrip & Hn & Htxt).
  split; [reflexivity|]. split; [exact HsupIn|].
  split.
  { destruct (supported_cases e Hsup) as [E|[E|[E|E]]]; rewrite E; simpl; auto. }
  split; [exact Hstrip|]. split; [reflexivity|]. split; [reflexivity|].
  split; [reflexivity|]. split; [|split; assumption].
  destruct (String.eqb_spec (detect_language text) "arabic"); [auto|discriminate].
Qed.

Lemma process_file_result_witness :
  exists md,
    process_file arabic_txt = inr md
    /\ Processed.file_type md = lit "txt"
    /\ Processed.language md = "arabic"%string
    /\ strip (Processed.text md) = Processed.text md.
Proof.
  destruct (process_file arabic_txt) as [e|md] eqn:H;
    [vm_compute in H; discriminate|].
  exists md. destruct (process_file_result _ _ H)
    as (_ & _ & _ & Hstrip & _ & _ & Hlang & Hdia & _).
  split; [reflexivity|].
  assert (Hmd : Processed.has_arabic_diacritics md = true)
    by (vm_compute in H; injection H as <-; reflexivity).
  split; [|split]; [|apply Hdia, Hmd|exact Hstrip].
  vm_compute in H. injection H as <-. reflexivity.
Defined.



(** ** Context for a query *)











(** X16: when the [semantic_search] call of [hybrid_search] returns,
    [hybrid_search] returns the same response if the filters hold no
    language; with a language it returns the results whose document has
    that language, in the same order, with [total_results] their number
    and the same [query] and [processing_time]. *)
Theorem hybrid_search_exact (w : World) (query : str) (top_k : Z)
    (filters : option (gmap string str)) (st st1 : St) (rs : Response.t) :
  semantic_search w query top_k (filter_document_id filters) st
  = (Returned rs, st1) ->
  (filter_language filters = None ->
   hybrid_search w query top_k filters st = (Returned rs, st1))
  /\ (forall lf,
        filter_language filters = Some lf ->
        let kept :=
          match database w with
          | Some db => List.filter (language_matches db lf) (Response.results rs)
          | None => []
          end in
        exists st2,
          hybrid_search w query top_k filters st
          = (Returned (Response.mk (Response.query rs) kept (len kept)
                         (Response.processing_time rs)), st2)).
Proof.
  intros Hsem. rewrite hybrid_search_unfold, Hsem.
  split; [intros ->; reflexivity|].
  intros lf Hlf kept. rewrite Hlf. unfold kept.
  destruct (database w) as [db|] eqn:Hw.
  - rewrite (keep_language_run w db Hw). eexists. reflexivity.
  - destruct (semantic_search_total _ _ _ _ _ _ _ Hsem) as [_ Hdb].
    destruct (Response.results rs) as [|r rest].
    + simpl. eexists. reflexivity.
    + destruct Hdb as [db Hdb]; [discriminate|congruence].
Qed.

Lemma hybrid_search_exact_witness :
  exists resp st2,
    hybrid_search ranked_a_first (lit "q") 2
      (Some {[ "language"%string := lit "english" ]}) st0
    = (Returned resp, st2)
    /\ List.map Result.chunk_id (Response.results resp) = [lit "a"; lit "b"].
Proof.
  destruct (semantic_search ranked_a_first (lit "q") 2
              (filter_document_id (Some {[ "language"%string := lit "english" ]}))
              st0) as [[rs|e] st1] eqn:Hsem; [|vm_compute in Hsem; discriminate].
  destruct (hybrid_search_exact _ _ _ _ _ _ _ Hsem) as [_ Hlang].
  destruct (Hlang (lit "english")) as [st2 Hrun]; [vm_compute; reflexivity|].
  eexists _, st2. split; [exact Hrun|].
  vm_compute in Hsem. injection Hsem as <- <-. vm_compute. reflexivity.
Defined.



(** ** Calls made by a search *)

Section SearchCalls.

Variable w : World.
Variables (query : str) (top_k : Z) (document_id : option str).
Variable st : St.

#[local] Arguments first_or_empty : simpl never.

(** X18: [semantic_search] catches nothing: it raises when the
    embedding provider raises (after one clock reading and that call
    alone), when the vector store raises (after the embedding and the
    query), and when the database is down while the store returned ids
    (after the call for the chunk rows). *)
Theorem semantic_search_failures :
  (generate_embedding w query = None ->
   semantic_search w query top_k document_id st
   = (Raised EmbeddingError,
      mkSt (S (ticks st)) (trace st ++ [EvEmbed query])))
  /\ (forall e,
        generate_embedding w query = Some e ->
        collection_query w e top_k (where_clause document_id) = None ->
        semantic_search w query top_k document_id st
        = (Raised VectorStoreError, after_query query top_k document_id st))
  /\ (forall vr,
        store_answer w query top_k document_id = Some vr ->
        first_or_empty (ids vr) <> [] ->
        database w = None ->
        semantic_search w query top_k document_id st
        = (Raised DatabaseError,
           mkSt (S (ticks st))
             (trace (after_query query top_k document_id st)
              ++ [EvChunkDetails (first_or_empty (ids vr))]))).
Proof.
  split; [|split].
  - intros H. unfold semantic_search, bind, time, call. rewrite H. reflexivity.
  - intros e He Hq.
    unfold semantic_search, bind, time, call, search_similar_chunks, after_query,
      log_event.
    fold (where_clause document_id). rewrite He. simpl. unfold call.
    rewrite Hq. unfold log_event. simpl. rewrite <- ?app_assoc. reflexivity.
  - intros vr Hvr Hids Hdb. unfold store_answer in Hvr.
    destruct (generate_embedding w query) as [e|] eqn:He; simpl in Hvr;
      [|discriminate].
    unfold semantic_search, bind, time, call, search_similar_chunks, after_query,
      get_chunk_details, log_event.
    fold (where_clause document_id). rewrite He. simpl. unfold call.
    rewrite Hvr. simpl.
    destruct (first_or_empty (ids vr)) as [|i0 is0] eqn:E; [done|].
    simpl. unfold call. rewrite Hdb. unfold log_event. simpl.
    rewrite <- ?app_assoc. reflexivity.
Qed.

End SearchCalls.

Lemma semantic_search_failures_witness :
  semantic_search embedding_down (lit "q") 2 None st0
  = (Raised EmbeddingError, mkSt 1 [EvEmbed (lit "q")]).
Proof.
  destruct (semantic_search_failures embedding_down (lit "q") 2 None st0)
    as (H & _).
  apply H. reflexivity.
Defined.

(** X19: a [semantic_search] that returns has called, in this order:
    the embedding provider once, the vector store once with
    [n_results = top_k] and the document filter, and, only when ids came
    back, [get_chunk_details] once and then [get_document] once per
    result, for the document of that result. *)
Theorem semantic_search_access_pattern (w : World) (query : str) (top_k : Z)
    (document_id : option str) (st st' : St) (resp : Response.t) :
  semantic_search w query top_k document_id st = (Returned resp, st') ->
  exists vr,
    store_answer w query top_k document_id = Some vr
    /\ trace st'
       = trace st
         ++ [EvEmbed query; EvVectorQuery top_k (where_clause document_id)]
         ++ (if truthy (first_or_empty (ids vr))
             then EvChunkDetails (first_or_empty (ids vr))
                  :: List.map (fun r => EvGetDocument (Result.document_id r))
                       (Response.results resp)
             else []).
Proof.
  intros H. apply semantic_search_returned in H as (vr & Hvr & H).
  exists vr. split; [exact Hvr|].
  destruct H as [(Hnil & -> & ->)|(db & Hdb & Hne & -> & ->)].
  - rewrite Hnil. simpl. rewrite ?app_nil_r. reflexivity.
  - destruct (first_or_empty (ids vr)) as [|i0 is0] eqn:E; [done|].
    simpl. rewrite <- app_assoc. simpl. do 4 f_equal.
    unfold found_response. simpl. rewrite E.
    generalize (returned_distances vr). intros ds.
    generalize (chunk_details db (i0 :: is0)). intros l.
    change (imap (result_of db ds) l)
      with (imap (fun i c => result_of db ds (0 + i) c) l).
    generalize 0%nat. induction l as [|c l IH]; intros k; [reflexivity|].
    rewrite imap_cons. simpl. f_equal.
    rewrite (imap_ext _ (fun i c => result_of db ds (S k + i) c))
      by (intros; simpl; f_equal; lia).
    apply IH.
Qed.

Lemma semantic_search_access_pattern_witness :
  exists resp st',
    semantic_search ranked_a_first (lit "q") 2 None st0 = (Returned resp, st')
    /\ trace st'
       = [EvEmbed (lit "q"); EvVectorQuery 2 None;
          EvChunkDetails [lit "a"; lit "b"];
          EvGetDocument (lit "d1"); EvGetDocument (lit "d1")].
Proof.
  destruct (semantic_search ranked_a_first (lit "q") 2 None st0)
    as [[resp|e] st'] eqn:Hsem; [|vm_compute in Hsem; discriminate].
  exists resp, st'. split; [reflexivity|].
  destruct (semantic_search_access_pattern _ _ _ _ _ _ _ Hsem)
    as (vr & Hvr & Htrace).
  vm_compute in Hvr. injection Hvr as <-.
  vm_compute in Hsem. injection Hsem as <- <-. reflexivity.
Defined.

(** ** The writing side of the storage service *)

Lemma find_app_split {A} (p : A -> bool) (l1 l2 : list A) :
  List.find p (l1 ++ l2)
  = match List.find p l1 with
    | Some x => Some x
    | None => List.find p l2
    end.
Proof.
  induction l1 as [|x l1 IH]; simpl; [reflexivity|].
  destruct (p x); [reflexivity|exact IH].
Qed.

Lemma find_document_none (l : list DocumentRow) (id : str) :
  id ∉ List.map (fun d => Document.id (dr_row d)) l ->
  List.find (fun d => bool_decide (Document.id d = id)) (List.map dr_row l)
  = None.
Proof.
  induction l as [|x l IH]; simpl; intros H; [reflexivity|].
  rewrite not_elem_of_cons in H. destruct H as [H1 H2].
  rewrite bool_decide_eq_false_2 by congruence. auto.
Qed.

Lemma find_document_some (l : list DocumentRow) (id : str) :
  id ∈ List.map (fun d => Document.id (dr_row d)) l ->
  exists d,
    List.find (fun d => bool_decide (Document.id d = id)) (List.map dr_row l)
    = Some d.
Proof.
  induction l as [|x l IH]; simpl; intros H.
  - inversion H.
  - destruct (decide (Document.id (dr_row x) = id)) as [E|E].
    + rewrite bool_decide_eq_true_2 by exact E. eauto.
    + rewrite bool_decide_eq_false_2 by exact E.
      apply IH. rewrite elem_of_cons in H. destruct H; [congruence|assumption].
Qed.

Lemma new_chunk_rows_length (env : StoreEnv) (d : str) (cds : list ChunkData) :
  forall n, length (new_chunk_rows env n d cds) = length cds.
Proof. induction cds as [|c cds IH]; intros n; simpl; [reflexivity|]. now rewrite IH. Qed.

Lemma new_chunk_rows_lookup (env : StoreEnv) (d : str) (cds : list ChunkData) :
  forall n i cd,
    cds !! i = Some cd ->
    new_chunk_rows env n d cds !! i
    = Some (mkChunkRow
              (Chunk.mk (uuid4 env (n + i)) d (cd_index cd) (cd_text cd)
                 (len (cd_text cd)))
              (or_empty (cd_metadata cd))).
Proof.
  induction cds as [|c cds IH]; intros n i cd H; [discriminate|].
  destruct i as [|i]; simpl in *.
  - injection H as ->. now rewrite Nat.add_0_r.
  - rewrite (IH (S n) i cd H). now rewrite Nat.add_succ_r.
Qed.

Lemma new_chunk_rows_document (env : StoreEnv) (d : str) (cds : list ChunkData) :
  forall n,
    Forall (fun c => Chunk.document_id (cr_row c) = d)
      (new_chunk_rows env n d cds).
Proof.
  induction cds as [|c cds IH]; intros n; simpl; constructor; auto.
Qed.

Lemma new_entries_ids (d : str) (cds : list ChunkData) :
  forall ids embs,
    length ids = length cds -> length embs = length cds ->
    List.map ve_id (new_entries d ids embs cds) = ids.
Proof.
  induction cds as [|c cds IH]; intros [|i ids] [|e embs] H1 H2;
    simpl in *; try discriminate; try reflexivity.
  f_equal. apply IH; lia.
Qed.

Lemma new_entries_lookup (d : str) (cds : list ChunkData) :
  forall ids embs i id e cd,
    ids !! i = Some id -> embs !! i = Some e -> cds !! i = Some cd ->
    new_entries d ids embs cds !! i
    = Some (mkVectorEntry id e (cd_text cd) (vector_metadata d cd)).
Proof.
  induction cds as [|c cds IH]; intros [|i0 ids] [|e0 embs] i id e cd H1 H2 H3;
    try discriminate.
  destruct i as [|i]; simpl in *.
  - congruence.
  - eapply IH; eassumption.
Qed.

Lemma dict_get_set {V} (k key : string) (value : V) (d : list (string * V)) :
  dict_get k (dict_set key value d)
  = if String.eqb key k then Some value else dict_get k d.
Proof.
  induction d as [|[k0 v0] d IH]; simpl.
  - reflexivity.
  - destruct (String.eqb k0 key) eqn:E0; simpl.
    + apply String.eqb_eq in E0. subst k0.
      destruct (String.eqb key k); reflexivity.
    + destruct (String.eqb k0 k) eqn:E1.
      * apply String.eqb_eq in E1. subst k0.
        rewrite String.eqb_sym, E0. reflexivity.
      * exact IH.
Qed.

Lemma dict_get_absent {V} (k : string) (d : list (string * V)) :
  k ∉ List.map fst d -> dict_get k d = None.
Proof.
  induction d as [|[k0 v0] d IH]; simpl; intros H; [reflexivity|].
  rewrite not_elem_of_cons in H. destruct H as [H1 H2].
  destruct (String.eqb k0 k) eqn:E.
  - apply String.eqb_eq in E. congruence.
  - auto.
Qed.

Lemma dict_update_get {V} (k : string) (md : list (string * V)) :
  NoDup (List.map fst md) ->
  forall base,
    dict_get k (fold_left (fun d kv => dict_set (fst kv) (snd kv) d) md base)
    = match dict_get k md with
      | Some v => Some v
      | None => dict_get k base
      end.
Proof.
  induction md as [|[k0 v0] md IH]; simpl; intros Hnd base; [reflexivity|].
  apply NoDup_cons in Hnd. destruct Hnd as [Hk Hnd].
  rewrite (IH Hnd). rewrite dict_get_set.
  destruct (String.eqb k0 k) eqn:E.
  - apply String.eqb_eq in E. subst k0.
    rewrite (dict_get_absent k md Hk). reflexivity.
  - reflexivity.
Qed.

(** X20: [store_document] never touches the chunks or the collection;
    when it raises, the documents are unchanged; when it returns an id,
    this is the identifier just generated, it was not in the table,
    [get_document] on the new tables finds for it the row with exactly
    the given fields, and finds for every other id what it found
    before. *)
Theorem store_document_round_trip (env : StoreEnv) (filename file_type : str)
    (file_size : Z) (language chunking_strategy : str) (total_chunks : Z)
    (metadata : option (list (string * Json))) (s s' : Stores)
    (r : Try str) :
  store_document env filename file_type file_size language chunking_strategy
    total_chunks metadata s = (r, s') ->
  sql_chunks s' = sql_chunks s
  /\ collection s' = collection s
  /\ match r with
     | Failed _ => sql_documents s' = sql_documents s
     | Done id =>
         id = uuid4 env (uuid_calls s)
         /\ (id ∉ document_ids s)
         /\ exists db db',
              database_of env s = Some db
              /\ database_of env s' = Some db'
              /\ document_of db' id
                 = Some (Document.mk id filename file_type file_size language
                           chunking_strategy total_chunks)
              /\ forall other,
                   other <> id -> document_of db' other = document_of db other
     end.
Proof.
  unfold store_document. intros H.
  destruct (sql_available env) eqn:Hup; simpl in H.
  2:{ injection H as <- <-. simpl. auto. }
  destruct (bool_decide (uuid4 env (uuid_calls s) ∈ document_ids s)) eqn:Hin.
  { injection H as <- <-. simpl. auto. }
  apply bool_decide_eq_false in Hin.
  injection H as <- <-. simpl.
  repeat split; auto.
  unfold database_of. rewrite Hup. simpl.
  eexists _, _. split; [reflexivity|]. split; [reflexivity|].
  unfold document_of. simpl. rewrite !map_app, !find_app_split.
  split.
  - rewrite (find_document_none _ _ Hin). simpl.
    rewrite bool_decide_eq_true_2 by reflexivity. reflexivity.
  - intros other Hne. rewrite find_app_split.
    destruct (List.find _ (List.map dr_row (sql_documents s))); [reflexivity|].
    simpl. rewrite bool_decide_eq_false_2 by congruence. reflexivity.
Qed.

Lemma new_chunk_ids_lookup (env : StoreEnv) (d : str) (cds : list ChunkData)
    (n i : nat) (cd : ChunkData) :
  cds !! i = Some cd ->
  List.map (fun c => Chunk.id (cr_row c)) (new_chunk_rows env n d cds) !! i
  = Some (uuid4 env (n + i)).
Proof.
  intros H. change (List.map ?f ?l) with (f <$> l).
  rewrite list_lookup_fmap, (new_chunk_rows_lookup env d cds n i cd H).
  reflexivity.
Qed.

Lemma store_chunks_cases (env : StoreEnv) (d : str) (cds : list ChunkData)
    (embs : list (list Q)) (s : Stores) :
  let rows := new_chunk_rows env (uuid_calls s) d cds in
  let ids := List.map (fun c => Chunk.id (cr_row c)) rows in
  let n := (uuid_calls s + length cds)%nat in
  let entries := new_entries d ids embs cds in
  (store_chunks env d cds embs s
   = (Failed SqlError, mkStores (sql_documents s) (sql_chunks s) (collection s) n))
  \/ (store_chunks env d cds embs s
      = (Failed IntegrityError,
         mkStores (sql_documents s) (sql_chunks s) (collection s) n))
  \/ (store_chunks env d cds embs s
      = (Failed VectorError,
         mkStores (sql_documents s) (sql_chunks s ++ rows) (collection s) n)
      /\ NoDup (chunk_ids_of s ++ ids)
      /\ (cds <> [] -> d ∈ document_ids s))
  \/ (store_chunks env d cds embs s
      = (Done tt,
         mkStores (sql_documents s) (sql_chunks s ++ rows)
           (collection s ++ entries) n)
      /\ NoDup (chunk_ids_of s ++ ids)
      /\ (cds <> [] -> d ∈ document_ids s)).
Proof.
  intros rows ids n entries. unfold store_chunks.
  fold rows. fold ids. fold n. fold entries.
  destruct (sql_available env); simpl; [|left; reflexivity].
  destruct (bool_decide (NoDup (chunk_ids_of s ++ ids))) eqn:Hnd; simpl;
    [|right; left; reflexivity].
  apply bool_decide_eq_true in Hnd.
  destruct (truthy cds && negb (bool_decide (d ∈ document_ids s))) eqn:Hfk;
    [right; left; reflexivity|].
  assert (Hdoc : cds <> [] -> d ∈ document_ids s).
  { intros Hne. apply truthy_true in Hne. rewrite Hne in Hfk. simpl in Hfk.
    apply negb_false_iff, bool_decide_eq_true in Hfk. exact Hfk. }
  destruct (collection_add_ok env entries).
  - right; right; right. auto.
  - right; right; left. auto.
Qed.

(** X21: when [store_chunks] returns, having received as many
    embeddings as chunks: the documents are unchanged; the rows and the
    entries of before are kept in front and one row and one entry per
    chunk follow, in the order of the chunks; the chunk ids stay
    distinct; the document exists if there is a chunk; the row of the
    i-th chunk has the i-th generated id, the document id, the index,
    the text and [chunk_size = len(text)]; its entry has the same id,
    the text and the i-th embedding; and in the metadata of the entry a
    key of the chunk's own metadata wins over [document_id] and
    [chunk_index]. *)
Theorem store_chunks_rows (env : StoreEnv) (document_id : str)
    (chunks : list ChunkData) (embeddings : list (list Q)) (s s' : Stores) :
  store_chunks env document_id chunks embeddings s = (Done tt, s') ->
  length embeddings = length chunks ->
  sql_documents s' = sql_documents s
  /\ take (length (sql_chunks s)) (sql_chunks s') = sql_chunks s
  /\ take (length (collection s)) (collection s') = collection s
  /\ length (sql_chunks s') = (length (sql_chunks s) + length chunks)%nat
  /\ length (collection s') = (length (collection s) + length chunks)%nat
  /\ NoDup (chunk_ids_of s')
  /\ (chunks <> [] -> document_id ∈ document_ids s)
  /\ forall i cd,
       chunks !! i = Some cd ->
       exists row entry,
         sql_chunks s' !! (length (sql_chunks s) + i)%nat = Some row
         /\ collection s' !! (length (collection s) + i)%nat = Some entry
         /\ cr_row row
            = Chunk.mk (uuid4 env (uuid_calls s + i)) document_id
                (cd_index cd) (cd_text cd) (len (cd_text cd))
         /\ ve_id entry = Chunk.id (cr_row row)
         /\ ve_document entry = cd_text cd
         /\ embeddings !! i = Some (ve_embedding entry)
         /\ forall key,
              NoDup (List.map fst (or_empty (cd_metadata cd))) ->
              dict_get key (ve_metadata entry)
              = match dict_get key (or_empty (cd_metadata cd)) with
                | Some v => Some v
                | None =>
                    dict_get key
                      [("document_id"%string, JStr document_id);
                       ("chunk_index"%string, JInt (cd_index cd))]
                end.
Proof.
  intros H Hlen.
  destruct (store_chunks_cases env document_id chunks embeddings s)
    as [E|[E|[[E _]|(E & Hnd & Hdoc)]]];
    rewrite E in H; try discriminate.
  injection H as <-. cbn [sql_documents sql_chunks collection].
  pose proof (new_chunk_rows_length env document_id chunks (uuid_calls s))
    as Hrows.
  set (rows := new_chunk_rows env (uuid_calls s) document_id chunks) in *.
  set (ids := List.map (fun c => Chunk.id (cr_row c)) rows) in *.
  assert (Hids : length ids = length chunks)
    by (unfold ids; rewrite length_map; exact Hrows).
  pose proof (new_entries_ids document_id chunks ids embeddings Hids Hlen)
    as Hentries.
  assert (Hel : length (new_entries document_id ids embeddings chunks)
                = length chunks).
  { rewrite <- (length_map ve_id), Hentries. exact Hids. }
  split; [reflexivity|].
  split; [apply take_app_length|].
  split; [apply take_app_length|].
  split; [rewrite length_app; lia|].
  split; [rewrite length_app; lia|].
  split.
  { unfold chunk_ids_of. cbn [sql_chunks]. rewrite map_app. exact Hnd. }
  split; [exact Hdoc|].
  intros i cd Hi.
  pose proof (new_chunk_rows_lookup env document_id chunks (uuid_calls s) i cd Hi)
    as Hrow.
  pose proof (new_chunk_ids_lookup env document_id chunks (uuid_calls s) i cd Hi)
    as Hid.
  fold rows in Hrow. fold rows in Hid. fold ids in Hid.
  destruct (lookup_lt_is_Some_2 embeddings i) as [e He].
  { rewrite Hlen. apply lookup_lt_is_Some_1. eauto. }
  pose proof (new_entries_lookup document_id chunks ids embeddings i _ e cd
                Hid He Hi) as Hentry.
  eexists _, _.
  split; [rewrite lookup_app_r by lia;
          replace (length (sql_chunks s) + i - length (sql_chunks s))%nat
            with i by lia; exact Hrow|].
  split; [rewrite lookup_app_r by lia;
          replace (length (collection s) + i - length (collection s))%nat
            with i by lia; exact Hentry|].
  cbn [cr_row ve_id ve_document ve_embedding ve_metadata Chunk.id].
  repeat split; try assumption.
  intros key Hk. unfold vector_metadata. apply dict_update_get. exact Hk.
Qed.

(** X22: a [store_chunks] that raises changes neither the documents nor
    the collection. When the database raised, the chunks are unchanged
    too. When the vector store raised, the rows are committed already and
    [rollback] does not undo them: the table has one more row per chunk,
    and, the two stores having agreed before, none of the new chunk ids
    is in the collection. *)
Theorem store_chunks_not_atomic (env : StoreEnv) (document_id : str)
    (chunks : list ChunkData) (embeddings : list (list Q)) (s s' : Stores)
    (e : StoreExn) :
  store_chunks env document_id chunks embeddings s = (Failed e, s') ->
  sql_documents s' = sql_documents s
  /\ collection s' = collection s
  /\ (e <> VectorError -> sql_chunks s' = sql_chunks s)
  /\ (e = VectorError ->
      take (length (sql_chunks s)) (sql_chunks s') = sql_chunks s
      /\ length (sql_chunks s') = (length (sql_chunks s) + length chunks)%nat
      /\ (stores_agree s ->
          forall row,
            row ∈ drop (length (sql_chunks s)) (sql_chunks s') ->
            Chunk.id (cr_row row) ∉ List.map ve_id (collection s'))).
Proof.
  intros H.
  destruct (store_chunks_cases env document_id chunks embeddings s)
    as [E|[E|[(E & Hnd & Hdoc)|[E _]]]];
    rewrite E in H; try discriminate;
    injection H as <- <-; cbn [sql_documents sql_chunks collection];
    repeat split; try reflexivity; try congruence.
  - apply take_app_length.
  - rewrite length_app, new_chunk_rows_length. reflexivity.
  - intros (_ & _ & Hcoll & _) row Hrow. rewrite drop_app_length in Hrow.
    rewrite Hcoll. apply NoDup_app in Hnd. destruct Hnd as (_ & Hdisj & _).
    intros Hin. apply (Hdisj _ Hin).
    change (List.map ?f ?l) with (f <$> l). apply list_elem_of_fmap.
    exists row. split; [reflexivity|exact Hrow].
Qed.

Lemma filter_all_true {A} (p : A -> bool) (l : list A) :
  (forall x, x ∈ l -> p x = true) -> List.filter p l = l.
Proof.
  induction l as [|x l IH]; simpl; intros H; [reflexivity|].
  rewrite (H x) by left. f_equal. apply IH. intros y Hy. apply H. now right.
Qed.

Lemma filter_none_true {A} (p : A -> bool) (l : list A) :
  (forall x, x ∈ l -> p x = false) -> List.filter p l = [].
Proof.
  induction l as [|x l IH]; simpl; intros H; [reflexivity|].
  rewrite (H x) by left. apply IH. intros y Hy. apply H. now right.
Qed.

Lemma elem_of_filter {A} (p : A -> bool) (l : list A) (x : A) :
  x ∈ List.filter p l <-> x ∈ l /\ p x = true.
Proof. rewrite !list_elem_of_In. apply filter_In. Qed.

Lemma elem_of_map {A B} (f : A -> B) (l : list A) (y : B) :
  y ∈ List.map f l <-> exists x, y = f x /\ x ∈ l.
Proof. change (List.map f l) with (f <$> l). apply list_elem_of_fmap. Qed.

Lemma NoDup_map_filter {A B} (f : A -> B) (p : A -> bool) (l : list A) :
  NoDup (List.map f l) -> NoDup (List.map f (List.filter p l)).
Proof.
  induction l as [|x l IH]; simpl; intros H; [constructor|].
  apply NoDup_cons in H. destruct H as [Hx H].
  destruct (p x); simpl; [|auto].
  apply NoDup_cons. split; [|auto].
  intros Hin. apply Hx. apply elem_of_map in Hin.
  destruct Hin as (y & -> & Hy). apply elem_of_filter in Hy.
  apply elem_of_map. exists y. tauto.
Qed.

Lemma NoDup_map_inj {A B} (f : A -> B) (l : list A) (a b : A) :
  NoDup (List.map f l) -> a ∈ l -> b ∈ l -> f a = f b -> a = b.
Proof.
  induction l as [|x l IH]; simpl; intros H Ha Hb E; [inversion Ha|].
  apply NoDup_cons in H. destruct H as [Hx H].
  apply elem_of_cons in Ha. apply elem_of_cons in Hb.
  destruct Ha as [->|Ha], Hb as [->|Hb]; auto.
  - exfalso. apply Hx. apply elem_of_map. exists b. auto.
  - exfalso. apply Hx. apply elem_of_map. exists a. auto.
Qed.

Lemma filter_parallel {A B C} (f : A -> C) (g : B -> C) (p : A -> bool)
    (q : B -> bool) (l1 : list A) :
  forall l2,
    List.map f l1 = List.map g l2 ->
    (forall a b, a ∈ l1 -> b ∈ l2 -> f a = g b -> p a = q b) ->
    List.map f (List.filter p l1) = List.map g (List.filter q l2).
Proof.
  induction l1 as [|a l1 IH]; intros [|b l2] E H; simpl in *;
    try discriminate; [reflexivity|].
  injection E as E1 E2.
  rewrite (H a b) by (auto; left).
  assert (IH' : List.map f (List.filter p l1) = List.map g (List.filter q l2)).
  { apply IH; [exact E2|]. intros a' b' Ha Hb. apply H; now right. }
  destruct (q b); simpl; congruence.
Qed.

Lemma find_row_some (l : list DocumentRow) (id : str) :
  id ∈ List.map (fun d => Document.id (dr_row d)) l ->
  exists d,
    List.find (fun d => bool_decide (Document.id (dr_row d) = id)) l = Some d.
Proof.
  induction l as [|x l IH]; simpl; intros H.
  - inversion H.
  - destruct (decide (Document.id (dr_row x) = id)) as [E|E].
    + rewrite bool_decide_eq_true_2 by exact E. eauto.
    + rewrite bool_decide_eq_false_2 by exact E.
      apply IH. rewrite elem_of_cons in H. destruct H; [congruence|assumption].
Qed.

Lemma find_row_none (l : list DocumentRow) (id : str) :
  id ∉ List.map (fun d => Document.id (dr_row d)) l ->
  List.find (fun d => bool_decide (Document.id (dr_row d) = id)) l = None.
Proof.
  induction l as [|x l IH]; simpl; intros H; [reflexivity|].
  rewrite not_elem_of_cons in H. destruct H as [H1 H2].
  rewrite bool_decide_eq_false_2 by congruence. auto.
Qed.

Lemma other_documents_absent (d : str) (s : Stores) :
  d ∉ document_ids s -> other_documents d s = sql_documents s.
Proof.
  intros H. apply filter_all_true. intros x Hx.
  apply negb_true_iff, bool_decide_eq_false. intros E. apply H.
  apply elem_of_map. exists x. auto.
Qed.

Lemma other_documents_ids (d : str) (s : Stores) :
  d ∉ List.map (fun r => Document.id (dr_row r)) (other_documents d s).
Proof.
  intros H. apply elem_of_map in H. destruct H as (x & E & Hx).
  apply elem_of_filter in Hx. destruct Hx as [_ Hx].
  apply negb_true_iff, bool_decide_eq_false in Hx. congruence.
Qed.

Lemma delete_document_run (env : StoreEnv) (d : str) (s : Stores) :
  sql_available env = true ->
  let s1 :=
    if bool_decide (d ∈ document_ids s) then
      mkStores (other_documents d s) (other_chunks d s) (collection s)
        (uuid_calls s)
    else s in
  delete_document env d s
  = if truthy (chunk_ids_for d s) then
      if collection_delete_ok env (chunk_ids_for d s) then
        (Done tt,
         mkStores (sql_documents s1) (sql_chunks s1) (other_entries d s)
           (uuid_calls s))
      else (Failed VectorError, s1)
    else (Done tt, s1).
Proof.
  intros Hup s1. unfold delete_document. rewrite Hup. simpl.
  fold (chunk_ids_for d s). fold (other_documents d s). fold (other_chunks d s).
  assert (E : match
                List.find
                  (fun d0 => bool_decide (Document.id (dr_row d0) = d))
                  (sql_documents s)
              with
              | Some _ =>
                  mkStores (other_documents d s) (other_chunks d s)
                    (collection s) (uuid_calls s)
              | None => s
              end = s1).
  { unfold s1. destruct (decide (d ∈ document_ids s)) as [Hin|Hout].
    - rewrite bool_decide_eq_true_2 by exact Hin.
      destruct (find_row_some _ _ Hin) as [x ->]. reflexivity.
    - rewrite bool_decide_eq_false_2 by exact Hout.
      rewrite (find_row_none _ _ Hout). reflexivity. }
  rewrite E.
  assert (Hc : collection s1 = collection s)
    by (unfold s1; destruct (bool_decide _); reflexivity).
  assert (Hu : uuid_calls s1 = uuid_calls s)
    by (unfold s1; destruct (bool_decide _); reflexivity).
  rewrite Hc, Hu. reflexivity.
Qed.

Lemma other_entries_none (d : str) (s : Stores) :
  chunk_ids_for d s = [] -> other_entries d s = collection s.
Proof.
  intros E. unfold other_entries. rewrite E. apply filter_all_true.
  intros x _. apply negb_true_iff, bool_decide_eq_false. apply not_elem_of_nil.
Qed.

Lemma delete_document_done (env : StoreEnv) (d : str) (s s' : Stores) :
  delete_document env d s = (Done tt, s') ->
  sql_documents s' = other_documents d s
  /\ sql_chunks s'
     = (if bool_decide (d ∈ document_ids s) then other_chunks d s
        else sql_chunks s)
  /\ collection s' = other_entries d s
  /\ uuid_calls s' = uuid_calls s.
Proof.
  intros H. destruct (sql_available env) eqn:Hup.
  2:{ unfold delete_document in H. rewrite Hup in H. discriminate. }
  rewrite (delete_document_run env d s Hup) in H.
  assert (Hdocs :
            sql_documents
              (if bool_decide (d ∈ document_ids s) then
                 mkStores (other_documents d s) (other_chunks d s)
                   (collection s) (uuid_calls s)
               else s) = other_documents d s).
  { destruct (decide (d ∈ document_ids s)) as [Hin|Hout].
    - rewrite bool_decide_eq_true_2 by exact Hin. reflexivity.
    - rewrite bool_decide_eq_false_2 by exact Hout.
      symmetry. apply other_documents_absent. exact Hout. }
  destruct (truthy (chunk_ids_for d s)) eqn:Hids.
  - destruct (collection_delete_ok env (chunk_ids_for d s)); [|discriminate].
    injection H as <-. cbn [sql_documents sql_chunks collection uuid_calls].
    rewrite Hdocs. repeat split.
    destruct (bool_decide (d ∈ document_ids s)); reflexivity.
  - apply truthy_false in Hids. injection H as <-.
    rewrite Hdocs, (other_entries_none d s Hids). repeat split.
    + destruct (bool_decide (d ∈ document_ids s)); reflexivity.
    + destruct (bool_decide (d ∈ document_ids s)); reflexivity.
    + destruct (bool_decide (d ∈ document_ids s)); reflexivity.
Qed.

(** X23: when [delete_document] returns for a document of the table:
    the document is gone, no remaining chunk row belongs to it, no
    remaining entry of the collection has the id of one of its chunks,
    and the other documents, chunk rows and entries are kept, in
    order. *)
Theorem delete_document_removes (env : StoreEnv) (document_id : str)
    (s s' : Stores) :
  delete_document env document_id s = (Done tt, s') ->
  document_id ∈ document_ids s ->
  (document_id ∉ document_ids s')
  /\ (forall c, c ∈ sql_chunks s' ->
        Chunk.document_id (cr_row c) <> document_id)
  /\ (forall c e,
        c ∈ sql_chunks s -> Chunk.document_id (cr_row c) = document_id ->
        e ∈ collection s' -> ve_id e <> Chunk.id (cr_row c))
  /\ sql_documents s' = other_documents document_id s
  /\ sql_chunks s' = other_chunks document_id s
  /\ collection s' = other_entries document_id s.
Proof.
  intros H Hin. apply delete_document_done in H.
  destruct H as (Hd & Hc & He & _).
  rewrite bool_decide_eq_true_2 in Hc by exact Hin.
  split; [unfold document_ids; rewrite Hd; apply other_documents_ids|].
  split.
  { intros c Hcin. rewrite Hc in Hcin. apply elem_of_filter in Hcin.
    destruct Hcin as [_ Hq]. apply negb_true_iff, bool_decide_eq_false in Hq.
    exact Hq. }
  split; [|auto].
  intros c e Hcin Hcd Hein Heq. rewrite He in Hein.
  apply elem_of_filter in Hein. destruct Hein as [_ Hq].
  apply negb_true_iff, bool_decide_eq_false in Hq. apply Hq.
  rewrite Heq. apply elem_of_map. exists c. split; [reflexivity|].
  apply elem_of_filter. split; [exact Hcin|].
  apply bool_decide_eq_true. exact Hcd.
Qed.

Lemma stores_agree_delete (d : str) (s : Stores) :
  stores_agree s ->
  List.map ve_id (other_entries d s)
  = List.map (fun c => Chunk.id (cr_row c)) (other_chunks d s).
Proof.
  intros (_ & Hnd & Hcoll & _). apply filter_parallel; [exact Hcoll|].
  intros e c _ Hc Heq. f_equal.
  apply bool_decide_ext. rewrite Heq. unfold chunk_ids_for. split.
  - intros Hin. apply elem_of_map in Hin. destruct Hin as (c' & Hid & Hc').
    apply elem_of_filter in Hc'. destruct Hc' as [Hc' Hd].
    apply bool_decide_eq_true in Hd.
    rewrite (NoDup_map_inj _ _ c c' Hnd Hc Hc' Hid). exact Hd.
  - intros Hd. apply elem_of_map. exists c. split; [reflexivity|].
    apply elem_of_filter. split; [exact Hc|]. apply bool_decide_eq_true.
    exact Hd.
Qed.

Lemma stores_agree_no_orphans (d : str) (s : Stores) :
  stores_agree s -> d ∉ document_ids s -> chunk_ids_for d s = [].
Proof.
  intros (_ & _ & _ & Hfk) Hout. unfold chunk_ids_for.
  rewrite filter_none_true; [reflexivity|].
  intros c Hc. apply bool_decide_eq_false. intros E.
  rewrite Forall_forall in Hfk. apply Hout. rewrite <- E. apply Hfk. exact Hc.
Qed.

(** X24: the agreement of the two stores (distinct document ids,
    distinct chunk ids, the ids of the collection being the chunk ids in
    the same order, the document of every chunk present) is kept by
    every [store_document], [store_chunks] (with as many embeddings as
    chunks) and [delete_document] that returns. *)
Theorem stores_agree_preserved (env : StoreEnv) (s s' : Stores) :
  stores_agree s ->
  (forall filename file_type file_size language chunking_strategy
          total_chunks metadata id,
      store_document env filename file_type file_size language
        chunking_strategy total_chunks metadata s = (Done id, s') ->
      stores_agree s')
  /\ (forall document_id chunks embeddings,
        length embeddings = length chunks ->
        store_chunks env document_id chunks embeddings s = (Done tt, s') ->
        stores_agree s')
  /\ (forall document_id,
        delete_document env document_id s = (Done tt, s') ->
        stores_agree s').
Proof.
  intros Hs. pose proof Hs as (Hdocs & Hchunks & Hcoll & Hfk).
  split; [|split].
  - intros filename file_type file_size language chunking_strategy
      total_chunks metadata id H.
    unfold store_document in H.
    destruct (negb (sql_available env)); [discriminate|].
    destruct (bool_decide _) eqn:Hin in H; [discriminate|].
    apply bool_decide_eq_false in Hin. injection H as <- <-.
    unfold stores_agree, document_ids, chunk_ids_of.
    cbn [sql_documents sql_chunks collection].
    rewrite map_app. simpl. repeat split; try assumption.
    + apply NoDup_app. split; [exact Hdocs|]. split; [|apply NoDup_singleton].
      intros x Hx Hx'. apply list_elem_of_singleton in Hx'. subst x.
      exact (Hin Hx).
    + eapply Forall_impl; [exact Hfk|]. intros c Hc. simpl in Hc.
      apply elem_of_app. left. exact Hc.
  - intros d cds embs Hlen H.
    destruct (store_chunks_cases env d cds embs s)
      as [E|[E|[[E _]|(E & Hnd & Hdoc)]]];
      rewrite E in H; try discriminate.
    injection H as <-.
    unfold stores_agree, document_ids, chunk_ids_of.
    cbn [sql_documents sql_chunks collection].
    rewrite !map_app.
    split; [exact Hdocs|]. split; [exact Hnd|]. split.
    + f_equal; [exact Hcoll|]. apply new_entries_ids; [|exact Hlen].
      rewrite length_map. apply new_chunk_rows_length.
    + apply Forall_app. split; [exact Hfk|].
      destruct cds as [|cd cds]; [constructor|].
      eapply Forall_impl; [apply new_chunk_rows_document|].
      intros c Hc. simpl in Hc. rewrite Hc. apply Hdoc. discriminate.
  - intros d H. apply delete_document_done in H.
    destruct H as (Hd & Hc & He & _).
    destruct (decide (d ∈ document_ids s)) as [Hin|Hout].
    + rewrite bool_decide_eq_true_2 in Hc by exact Hin.
      unfold stores_agree, document_ids, chunk_ids_of. rewrite Hd, Hc, He.
      split; [apply NoDup_map_filter; exact Hdocs|].
      split; [apply NoDup_map_filter; exact Hchunks|].
      split; [apply stores_agree_delete; exact Hs|].
      apply Forall_forall. intros c Hcin. apply elem_of_filter in Hcin.
      destruct Hcin as [Hcin Hq].
      apply negb_true_iff, bool_decide_eq_false in Hq.
      rewrite Forall_forall in Hfk. specialize (Hfk c Hcin).
      apply elem_of_map in Hfk. destruct Hfk as (r & Er & Hr).
      apply elem_of_map. exists r. split; [exact Er|].
      apply elem_of_filter. split; [exact Hr|].
      apply negb_true_iff, bool_decide_eq_false. congruence.
    + rewrite bool_decide_eq_false_2 in Hc by exact Hout.
      rewrite (other_documents_absent d s Hout) in Hd.
      rewrite (other_entries_none d s (stores_agree_no_orphans d s Hs Hout))
        in He.
      unfold stores_agree, document_ids, chunk_ids_of. rewrite Hd, Hc, He.
      exact Hs.
Qed.

Lemma database_of_up (env : StoreEnv) (s : Stores) :
  sql_available env = true ->
  database_of env s
  = Some (mkDatabase (List.map dr_row (sql_documents s))
            (List.map cr_row (sql_chunks s))).
Proof. unfold database_of. now intros ->. Qed.

Lemma api_delete_missing (env : StoreEnv) (d : str) (s : Stores) :
  sql_available env = true ->
  d ∉ document_ids s ->
  Api.delete_document env d s = (Api.HTTPException 404, s).
Proof.
  intros Hup Hout. unfold Api.delete_document.
  rewrite (database_of_up env s Hup). unfold document_of. simpl.
  rewrite (find_document_none _ _ Hout). reflexivity.
Qed.

(** X25: the endpoint [DELETE /api/documents/{document_id}] answers 200
    only for a document of the table, which is then removed with its
    chunk rows and entries; it answers 404 only when there is no such
    document, changing nothing; a 500 either changes nothing, or comes
    from the vector store after the document and its chunk rows were
    deleted, the entries staying in the collection. After a 200 and
    after such a 500 a repeated request answers 404 and changes nothing,
    so the entries left behind cannot be removed through the endpoint. *)
Theorem delete_endpoint_outcomes (env : StoreEnv) (document_id : str)
    (s s' : Stores) (r : Api.Response str) :
  Api.delete_document env document_id s = (r, s') ->
  match r with
  | Api.Ok body =>
      body = lit "Document " ++ document_id ++ lit " deleted successfully"
      /\ document_id ∈ document_ids s
      /\ sql_documents s' = other_documents document_id s
      /\ sql_chunks s' = other_chunks document_id s
      /\ collection s' = other_entries document_id s
      /\ not_found_again document_id s'
  | Api.HTTPException status_code =>
      (status_code = 404 /\ s' = s /\ document_id ∉ document_ids s)
      \/ (status_code = 500 /\ s' = s)
      \/ (status_code = 500
          /\ document_id ∈ document_ids s
          /\ chunk_ids_for document_id s <> []
          /\ sql_documents s' = other_documents document_id s
          /\ sql_chunks s' = other_chunks document_id s
          /\ collection s' = collection s
          /\ not_found_again document_id s')
  end.
Proof.
  intros H. unfold Api.delete_document in H.
  destruct (sql_available env) eqn:Hup.
  2:{ unfold database_of in H. rewrite Hup in H. injection H as <- <-.
      right; left; auto. }
  rewrite (database_of_up env s Hup) in H. unfold document_of in H.
  simpl in H.
  destruct (decide (document_id ∈ document_ids s)) as [Hin|Hout].
  2:{ rewrite (find_document_none _ _ Hout) in H. injection H as <- <-.
      left; auto. }
  destruct (find_document_some _ _ Hin) as [x Hx]. rewrite Hx in H.
  assert (Hgone : forall s1,
            sql_documents s1 = other_documents document_id s ->
            not_found_again document_id s1).
  { intros s1 Hd env' Hup'. apply api_delete_missing; [exact Hup'|].
    unfold document_ids. rewrite Hd. apply other_documents_ids. }
  destruct (delete_document env document_id s) as [[[]|e] s1] eqn:Hdel.
  - injection H as <- <-.
    destruct (delete_document_done env document_id s s1 Hdel)
      as (Hd & Hc & He & _).
    rewrite bool_decide_eq_true_2 in Hc by exact Hin.
    repeat split; auto.
  - injection H as <- <-.
    rewrite (delete_document_run env document_id s Hup) in Hdel.
    rewrite bool_decide_eq_true_2 in Hdel by exact Hin.
    destruct (truthy (chunk_ids_for document_id s)) eqn:Hids;
      [|discriminate].
    destruct (collection_delete_ok env (chunk_ids_for document_id s));
      [discriminate|].
    injection Hdel as <- <-. apply truthy_true in Hids.
    right; right. repeat split; auto.
Qed.


Lemma store_chunks_done (env : StoreEnv) (d : str) (cds : list ChunkData)
    (embs : list (list Q)) (s s' : Stores) :
  store_chunks env d cds embs s = (Done tt, s') ->
  length embs = length cds ->
  exists rows entries,
    sql_documents s' = sql_documents s
    /\ sql_chunks s' = sql_chunks s ++ rows
    /\ collection s' = collection s ++ entries
    /\ List.map ve_id entries = List.map (fun c => Chunk.id (cr_row c)) rows
    /\ Forall (fun c => Chunk.document_id (cr_row c) = d) rows
    /\ NoDup (chunk_ids_of s ++ List.map (fun c => Chunk.id (cr_row c)) rows)
    /\ sql_available env = true.
Proof.
  intros H Hlen.
  assert (Hup : sql_available env = true).
  { unfold store_chunks in H. destruct (sql_available env);
      [reflexivity|discriminate]. }
  destruct (store_chunks_cases env d cds embs s)
    as [E|[E|[[E _]|(E & Hnd & Hdoc)]]];
    rewrite E in H; try discriminate.
  injection H as <-. eexists _, _. cbn [sql_documents sql_chunks collection].
  repeat split; try reflexivity; try assumption.
  - apply new_entries_ids; [|exact Hlen].
    rewrite length_map. apply new_chunk_rows_length.
  - apply new_chunk_rows_document.
Qed.



(** X27: from two stores that agree, [store_document], then
    [store_chunks] for the new id (with as many embeddings as chunks),
    then [delete_document] of that id, all returning, leave the
    documents, the chunk rows and the collection as they were. *)
Theorem store_then_delete_restores (env env' : StoreEnv)
    (filename file_type : str) (file_size : Z)
    (language chunking_strategy : str) (total_chunks : Z)
    (metadata : option (list (string * Json))) (chunks : list ChunkData)
    (embeddings : list (list Q)) (id : str) (s s1 s2 s3 : Stores) :
  stores_agree s ->
  store_document env filename file_type file_size language chunking_strategy
    total_chunks metadata s = (Done id, s1) ->
  length embeddings = length chunks ->
  store_chunks env id chunks embeddings s1 = (Done tt, s2) ->
  delete_document env' id s2 = (Done tt, s3) ->
  sql_documents s3 = sql_documents s
  /\ sql_chunks s3 = sql_chunks s
  /\ collection s3 = collection s.
Proof.
  intros (_ & _ & Hcoll & Hfk) Hdoc Hlen Hsc Hdel.
  unfold store_document in Hdoc.
  destruct (negb (sql_available env)); [discriminate|].
  destruct (bool_decide _) eqn:Hin in Hdoc; [discriminate|].
  apply bool_decide_eq_false in Hin. injection Hdoc as <- <-.
  set (id := uuid4 env (uuid_calls s)) in *.
  destruct (store_chunks_done env id chunks embeddings _ s2 Hsc Hlen)
    as (rows & entries & Hd & Hc & He & Hids & Hrows & Hnd & _).
  cbn [sql_documents sql_chunks collection] in Hd, Hc, He.
  unfold chunk_ids_of in Hnd. cbn [sql_chunks] in Hnd.
  fold (chunk_ids_of s) in Hnd.
  apply NoDup_app in Hnd. destruct Hnd as (_ & Hdisj & _).
  rewrite Forall_forall in Hfk, Hrows.
  assert (Hold : forall c, c ∈ sql_chunks s ->
                   Chunk.document_id (cr_row c) <> id).
  { intros c Hcin E. apply Hin. rewrite <- E. apply Hfk. exact Hcin. }
  apply delete_document_done in Hdel.
  destruct Hdel as (Hd3 & Hc3 & He3 & _).
  rewrite bool_decide_eq_true_2 in Hc3.
  2:{ unfold document_ids. rewrite Hd, map_app. apply elem_of_app. right.
      left. }
  assert (Hmine : chunk_ids_for id s2
                  = List.map (fun c => Chunk.id (cr_row c)) rows).
  { unfold chunk_ids_for. rewrite Hc, List.filter_app.
    rewrite filter_none_true, filter_all_true; [reflexivity| |].
    - intros c Hcin. apply bool_decide_eq_true. apply Hrows. exact Hcin.
    - intros c Hcin. apply bool_decide_eq_false. apply Hold. exact Hcin. }
  split; [|split].
  - rewrite Hd3. unfold other_documents. rewrite Hd, List.filter_app.
    rewrite filter_all_true.
    + simpl. rewrite bool_decide_eq_true_2 by reflexivity. simpl.
      apply app_nil_r.
    + intros r Hr. apply negb_true_iff, bool_decide_eq_false. intros E.
      apply Hin. apply elem_of_map. exists r. auto.
  - rewrite Hc3. unfold other_chunks. rewrite Hc, List.filter_app.
    rewrite filter_all_true, filter_none_true; [apply app_nil_r| |].
    + intros c Hcin. apply negb_false_iff, bool_decide_eq_true.
      apply Hrows. exact Hcin.
    + intros c Hcin. apply negb_true_iff, bool_decide_eq_false.
      apply Hold. exact Hcin.
  - rewrite He3. unfold other_entries. rewrite Hmine, He, List.filter_app.
    rewrite filter_all_true, filter_none_true; [apply app_nil_r| |].
    + intros e Hein. apply negb_false_iff, bool_decide_eq_true.
      rewrite <- Hids. apply elem_of_map. exists e. auto.
    + intros e Hein. apply negb_true_iff, bool_decide_eq_false.
      apply Hdisj. rewrite <- Hcoll. apply elem_of_map. exists e. auto.
Qed.

(** ** Examples *)



Lemma store_document_round_trip_witness :
  exists db',
    database_of healthy one_document = Some db'
    /\ document_of db' (example_uuid4 0)
       = Some (Document.mk (example_uuid4 0) (lit "a.txt") (lit "txt") 11
                 (lit "english") (lit "fixed") 2).
Proof.
  destruct (store_document_round_trip healthy (lit "a.txt") (lit "txt") 11
              (lit "english") (lit "fixed") 2 None empty_stores one_document
              (Done (example_uuid4 0)) eq_refl)
    as (_ & _ & _ & _ & db & db' & _ & Hdb' & Hdoc & _).
  exists db'. split; assumption.
Defined.

Lemma store_chunks_rows_witness :
  exists entry,
    collection with_chunks !! 0%nat = Some entry
    /\ ve_id entry = example_uuid4 1
    /\ dict_get "chunk_index" (ve_metadata entry) = Some (JInt 7)
    /\ dict_get "document_id" (ve_metadata entry)
       = Some (JStr (example_uuid4 0)).
Proof.
  destruct (store_chunks_rows healthy (example_uuid4 0) two_chunks
              two_embeddings one_document with_chunks eq_refl eq_refl)
    as (_ & _ & _ & _ & _ & _ & _ & H).
  destruct (H 0%nat _ eq_refl)
    as (row & entry & _ & Hentry & Hrow & Hid & _ & _ & Hmeta).
  exists entry. split; [exact Hentry|]. split; [rewrite Hid, Hrow; reflexivity|].
  assert (Hnd : NoDup ["strategy"%string; "chunk_index"%string]).
  { apply NoDup_cons. split; [|apply NoDup_singleton].
    intros Hin. apply list_elem_of_singleton in Hin. discriminate Hin. }
  split; [exact (Hmeta "chunk_index"%string Hnd)|].
  exact (Hmeta "document_id"%string Hnd).
Defined.

Lemma store_chunks_not_atomic_witness :
  exists s',
    store_chunks vector_store_down (example_uuid4 0) two_chunks
      two_embeddings one_document = (Failed VectorError, s')
    /\ length (sql_chunks s') = 2%nat
    /\ collection s' = [].
Proof.
  eexists. split; [reflexivity|].
  destruct (store_chunks_not_atomic vector_store_down (example_uuid4 0)
              two_chunks two_embeddings one_document _ VectorError eq_refl)
    as (_ & Hcoll & _ & Hrows).
  destruct (Hrows eq_refl) as (_ & Hlen & _).
  split; [exact Hlen|exact Hcoll].
Defined.

Lemma delete_document_removes_witness :
  exists s',
    delete_document healthy (example_uuid4 0) with_chunks = (Done tt, s')
    /\ sql_documents s' = [] /\ sql_chunks s' = [] /\ collection s' = [].
Proof.
  eexists. split; [reflexivity|].
  destruct (delete_document_removes healthy (example_uuid4 0) with_chunks _
              eq_refl)
    as (_ & _ & _ & Hd & Hc & He).
  { left. }
  rewrite Hd, Hc, He. repeat split; reflexivity.
Defined.

Lemma stores_agree_empty : stores_agree empty_stores.
Proof.
  repeat split; try constructor.
Qed.

Lemma stores_agree_preserved_witness : stores_agree with_chunks.
Proof.
  assert (H1 : stores_agree one_document).
  { apply (proj1 (stores_agree_preserved healthy empty_stores one_document
                    stores_agree_empty)
             (lit "a.txt") (lit "txt") 11 (lit "english") (lit "fixed") 2 None
             (example_uuid4 0)).
    reflexivity. }
  apply (proj1 (proj2 (stores_agree_preserved healthy one_document with_chunks
                         H1))
           (example_uuid4 0) two_chunks two_embeddings); reflexivity.
Defined.

Lemma delete_endpoint_outcomes_witness :
  exists s',
    Api.delete_document vector_store_down (example_uuid4 0) with_chunks
    = (Api.HTTPException 500, s')
    /\ length (collection s') = 2%nat
    /\ Api.delete_document healthy (example_uuid4 0) s'
       = (Api.HTTPException 404, s').
Proof.
  eexists. split; [reflexivity|].
  destruct (delete_endpoint_outcomes vector_store_down (example_uuid4 0)
              with_chunks _ _ eq_refl)
    as [(H & _)|[(_ & H)|(_ & _ & _ & _ & _ & Hcoll & Hgone)]].
  - discriminate H.
  - vm_compute in H. discriminate H.
  - split; [exact (eq_trans (f_equal (@length _) Hcoll) eq_refl)|].
    apply Hgone. reflexivity.
Defined.


Lemma store_then_delete_restores_witness :
  exists s3,
    delete_document healthy (example_uuid4 0) with_chunks = (Done tt, s3)
    /\ sql_documents s3 = [] /\ sql_chunks s3 = [] /\ collection s3 = [].
Proof.
  eexists. split; [reflexivity|].
  exact (store_then_delete_restores healthy healthy (lit "a.txt") (lit "txt")
           11 (lit "english") (lit "fixed") 2 None two_chunks two_embeddings
           (example_uuid4 0) empty_stores one_document with_chunks _
           stores_agree_empty eq_refl eq_refl eq_refl eq_refl).
Defined.
